(** * Headless::Logic::GA::Trivial — the trivial genetic-algorithm engine

    A shallow embedding of [geneticalgorithm.hpp] (class template
    [Trivial<C>]) and of the example program
    [examples/geneticalgorithm/trivial.cpp].

    Modelling conventions.
    - [unsigned int] is a [Z] in [0, 2^32); every arithmetic operation of the
      source is followed by [wrap].  The conversion of an [unsigned int] to
      [int] (the tuple [train] returns) is [to_int].
    - [double] is the binary64 type [float] of the kernel, with its IEEE 754
      operations: sums, products and quotients are rounded to nearest, and
      every comparison with a NaN is false.  Properties of all doubles are
      derived from the specification of these operations in the Standard
      Library.
    - [char] is a byte, read as a signed integer.
    - A C array is a list; reading or writing outside it is the fault
      [OutOfBounds].  A cell of [_reverse] that was never written holds
      [None]; reading it is the fault [Uninitialised].
    - Candidates live in a store ([heap]) indexed by handle; [_pool] holds
      handles, the sort moves handles, a mutator writes through a handle.
    - The two [#pragma omp parallel for] loops are run in index order.
    - Calls to the collaborators are recorded as a list of [event]s.
    - Loops whose end depends on the data take a budget; [Exhausted] is the
      model's answer when it runs out, which no run of the engine meets
      ([run_never_exhausted]). *)

From Stdlib Require Import ZArith List Lia Bool Permutation.
From Stdlib Require Import Floats.
From Stdlib.Strings Require Byte.
Import ListNotations.
Local Open Scope Z_scope.
Set Warnings "-inexact-float".

(** ** Results of fallible code *)

Inductive fault : Type :=
| OutOfBounds      (* an array is indexed outside its allocation *)
| Uninitialised    (* a cell that was never written is read *)
| Undefined        (* a floating value does not fit the unsigned target *)
| Exhausted.       (* the recursion budget of the model ran out *)

Inductive res (A : Type) : Type :=
| Ok (a : A)
| Fault (f : fault).
Arguments Ok {A} a.
Arguments Fault {A} f.

Definition rbind {A B} (r : res A) (k : A -> res B) : res B :=
  match r with
  | Ok a => k a
  | Fault f => Fault f
  end.

Notation "x <~ r ; k" := (rbind r (fun x => k))
  (at level 61, r at next level, right associativity).
Notation "' p <~ r ; k" := (rbind r (fun x => match x with p => k end))
  (at level 61, p pattern, r at next level, right associativity).

(** ** Machine integers and doubles *)

Definition UINT_MOD : Z := 2 ^ 32.

Definition wrap (z : Z) : Z := z mod UINT_MOD.

(** An [unsigned int] converted to [int]: the value when it fits, the
    value modulo [2^32] otherwise. *)
Definition to_int (z : Z) : Z := if z <? 2 ^ 31 then z else z - UINT_MOD.

Abbreviation double := float (only parsing).

(** An [unsigned int], or a non-negative [int], converted to [double]. *)
Definition of_unsigned (z : Z) : double := of_uint63 (Uint63Axioms.of_Z z).

(** The integer part of a double: truncation toward zero. *)
Definition truncate (x : double) : option Z :=
  match Prim2SF x with
  | S754_zero _ => Some 0
  | S754_finite s m e =>
      let t := Z.shiftl (Zpos m) e in Some (if s then - t else t)
  | S754_infinity _ | S754_nan => None
  end.

(** Conversion of a double to [unsigned int]: truncation toward zero,
    undefined when the truncated value is not representable. *)
Definition to_unsigned (x : double) : res Z :=
  match truncate x with
  | Some t => if (0 <=? t) && (t <? UINT_MOD) then Ok t else Fault Undefined
  | None => Fault Undefined
  end.
(** ** Arrays *)

Section Arrays.
Context {A : Type}.

Definition lookup (l : list A) (i : Z) : option A :=
  if i <? 0 then None else nth_error l (Z.to_nat i).

Fixpoint set_nth (l : list A) (n : nat) (x : A) : list A :=
  match l with
  | [] => []
  | y :: t => match n with
              | O => x :: t
              | S m => y :: set_nth t m x
              end
  end.

Definition upd (l : list A) (i : Z) (x : A) : list A :=
  if i <? 0 then l else set_nth l (Z.to_nat i) x.

(** [a[i]] as an rvalue. *)
Definition rd (l : list A) (i : Z) : res A :=
  match lookup l i with
  | Some x => Ok x
  | None => Fault OutOfBounds
  end.

(** [a[i] = x]. *)
Definition wr (l : list A) (i : Z) (x : A) : res (list A) :=
  match lookup l i with
  | Some _ => Ok (upd l i x)
  | None => Fault OutOfBounds
  end.
End Arrays.

(** ** The population store *)

Definition handle : Type := nat.

Record Trivial : Type := mkTrivial {
  _count : Z;
  _pool : list handle;
  _score : list double;
  _reverse : list (option double)
}.

Definition with_score (st : Trivial) (s : list double) : Trivial :=
  mkTrivial (_count st) (_pool st) s (_reverse st).

Definition with_pool (st : Trivial) (p : list handle) : Trivial :=
  mkTrivial (_count st) p (_score st) (_reverse st).

Definition with_reverse (st : Trivial) (r : list (option double)) : Trivial :=
  mkTrivial (_count st) (_pool st) (_score st) r.

(** ** The ranker: [partition] and [qsort] *)

(** The loops and the recursion of the ranker take a budget ([fuel]) that
    bounds the number of turns; [Exhausted] is the answer of the model when
    the budget runs out.  The budgets passed by the engine are never
    exhausted on a well-formed store ([qsort_spec], [run_never_exhausted]
    below). *)

(** [do { ++i; } while(_score[i] < pivot);] *)
Fixpoint scan_up (fuel : nat) (score : list double) (pivot : double) (i : Z) : res Z :=
  match fuel with
  | O => Fault Exhausted
  | S f =>
      let i := wrap (i + 1) in
      s <~ rd score i;
      if (s <? pivot)%float then scan_up f score pivot i else Ok i
  end.

(** [do { --j; } while(_score[j] > pivot);] *)
Fixpoint scan_down (fuel : nat) (score : list double) (pivot : double) (j : Z) : res Z :=
  match fuel with
  | O => Fault Exhausted
  | S f =>
      let j := wrap (j - 1) in
      s <~ rd score j;
      if (pivot <? s)%float then scan_down f score pivot j else Ok j
  end.

(** The six assignments that exchange slots [i] and [j] of both arrays. *)
Definition exchange (st : Trivial) (i j : Z) : res Trivial :=
  score <~ rd (_score st) i;
  candidate <~ rd (_pool st) i;
  sj <~ rd (_score st) j;
  s1 <~ wr (_score st) i sj;
  pj <~ rd (_pool st) j;
  p1 <~ wr (_pool st) i pj;
  s2 <~ wr s1 j score;
  p2 <~ wr p1 j candidate;
  Ok (with_pool (with_score st s2) p2).

(** The [for(;;)] loop of [partition]. *)
Fixpoint partition_loop (fuel : nat) (st : Trivial) (pivot : double) (i j : Z)
  : res (Trivial * Z) :=
  match fuel with
  | O => Fault Exhausted
  | S f =>
      let budget := S (length (_score st)) in
      i <~ scan_up budget (_score st) pivot i;
      j <~ scan_down budget (_score st) pivot j;
      if i >=? j then Ok (st, j)
      else st <~ exchange st i j; partition_loop f st pivot i j
  end.

Definition partition (st : Trivial) (lo hi : Z) : res (Trivial * Z) :=
  pivot <~ rd (_score st) lo;
  let i := wrap (lo - 1) in
  let j := wrap (hi + 1) in
  partition_loop (S (length (_score st))) st pivot i j.

Fixpoint qsort (fuel : nat) (st : Trivial) (lo hi : Z) : res Trivial :=
  match fuel with
  | O => Fault Exhausted
  | S f =>
      if lo <? hi then
        '(st, pivot) <~ partition st lo hi;
        if wrap (pivot - lo) <? wrap (hi - wrap (pivot + 1)) then
          st <~ qsort f st lo pivot;
          qsort f st (wrap (pivot + 1)) hi
        else
          st <~ qsort f st (wrap (pivot + 1)) hi;
          qsort f st lo pivot
      else Ok st
  end.

(** ** Collaborators *)

(** Calls to the collaborators, in the order they are made. *)
Inductive event : Type :=
| EvReserve (size : Z)
| EvEvaluate (minimum : double)
| EvVisit (size : Z)
| EvMutate (pos : Z) (strategy : nat)
| EvClone (candidate : handle)
| EvRelease (size : Z).

(** The scores returned by the successive evaluation passes and the
    mutator calls of a log. *)
Definition minima (l : list event) : list double :=
  flat_map (fun e => match e with EvEvaluate m => [m] | _ => [] end) l.

Definition mutations (l : list event) : list (Z * nat) :=
  flat_map (fun e => match e with EvMutate p k => [(p, k)] | _ => [] end) l.

Section Engine.
Set Implicit Arguments.

(** The candidate type [C] of the class template. *)
Variable C : Type.

Definition heap : Type := handle -> C.

Definition poke (h : heap) (p : handle) (c : C) : heap :=
  fun q => if Nat.eqb q p then c else h q.

(** The environment [E].  [reserve] fills slot [i] with a freshly
    constructed candidate whose content is [fresh i]; [release] has no
    observable result besides its call. *)
Record Environment : Type := mkEnvironment {
  fresh : nat -> C;
  evaluate_candidate : C -> double;
  clone : C -> C
}.

(** A mutator [M]: [threshold()] and
    [mutate(parents, score, total, size, offspring)].  The call reads the
    pool through the store and returns the content written to
    [*offspring]; the leading [nat] is the ordinal of the call in the run,
    on which the mutator's own random choices may depend. *)
Record Mutator : Type := mkMutator {
  threshold : double;
  mutate_offspring :
    nat -> heap -> list handle -> list (option double) -> double -> Z -> handle -> C
}.

(** The state a run threads through its calls: the engine's arrays, the
    candidate store, the number of values drawn so far from the engine's
    [uniform_real_distribution] and the number of mutator calls made. *)
Record world : Type := mkWorld {
  engine : Trivial;
  store_of : heap;
  tick : nat;
  calls : nat
}.

Definition with_engine (w : world) (st : Trivial) : world :=
  mkWorld st (store_of w) (tick w) (calls w).

(** State, faults and the event log. *)
Definition M (A : Type) : Type := world -> list event * res (A * world).

Definition ret {A} (a : A) : M A := fun w => ([], Ok (a, w)).

Definition bind {A B} (m : M A) (k : A -> M B) : M B :=
  fun w =>
    match m w with
    | (e1, Ok (a, w1)) => let (e2, r) := k a w1 in (e1 ++ e2, r)
    | (e1, Fault f) => (e1, Fault f)
    end.

Definition emit (e : event) : M unit := fun w => ([e], Ok (tt, w)).

Definition lift {A} (r : res A) : M A :=
  fun w => match r with
           | Ok a => ([], Ok (a, w))
           | Fault f => ([], Fault f)
           end.

Definition get_engine : M Trivial := fun w => ([], Ok (engine w, w)).

Definition put_engine (st : Trivial) : M unit :=
  fun w => ([], Ok (tt, with_engine w st)).

Definition get_world : M world := fun w => ([], Ok (w, w)).

Notation "x <- m ;; k" := (bind m (fun x => k))
  (at level 61, m at next level, right associativity).
Notation "m ;;; k" := (bind m (fun _ => k))
  (at level 61, right associativity).

(** *** Construction and [reserve] *)

(** [Trivial(pSize)]: three arrays of [pSize] cells.  The cells of [_pool]
    and [_score] are overwritten by [reserve] and by the evaluation pass
    before anything reads them, so their initial content is immaterial;
    the cells of [_reverse] start out unwritten. *)
Definition Trivial_new (pSize : Z) : Trivial :=
  let n := Z.to_nat pSize in
  mkTrivial pSize (repeat O n) (repeat 0%float n) (repeat None n).

Definition initial_world (env : Environment) (pSize : Z) : world :=
  mkWorld (Trivial_new pSize) (fresh env) 0 0.

(** [env->reserve(_pool, _count)]: slot [i] receives the handle of the
    [i]-th fresh candidate. *)
Definition reserve : M unit :=
  fun w =>
    let st := engine w in
    ([EvReserve (_count st)],
     Ok (tt, with_engine w (with_pool st (seq 0 (Z.to_nat (_count st)))))).

(** *** [evaluate] *)

(** [for(i = 0; i < _count; ++i) _score[i] = env->evaluate(_pool[i]);]
    the score array as the loop leaves it. *)
Definition scores_of (env : Environment) (w : world) : list double :=
  map (fun p => evaluate_candidate env (store_of w p)) (_pool (engine w)).

Definition evaluate (env : Environment) : M double :=
  fun w =>
    let st := engine w in
    let scored := with_score st (scores_of env w) in
    match
      (st <~ qsort (S (length (_pool st))) scored 0 (wrap (_count st - 1));
       m <~ rd (_score st) 0;
       Ok (st, m))
    with
    | Ok (st, m) => ([EvEvaluate m], Ok (m, with_engine w st))
    | Fault f => ([], Fault f)
    end.

(** *** The reverse score board *)

(** The cell of [_reverse] written at iteration [i]. *)
Definition reverse_index (eliteCount i : Z) : Z := wrap (eliteCount - i).

(** [for(i = 0; i < eliteCount; ++i)]: [n] iterations remain. *)
Fixpoint reverse_loop (n : nat) (i eliteCount : Z) (score : list double)
         (reverse : list (option double)) (totalScore : double)
  : res (list (option double) * double) :=
  match n with
  | O => Ok (reverse, totalScore)
  | S n' =>
      s <~ rd score i;
      reverse <~ wr reverse (reverse_index eliteCount i) (Some s);
      reverse_loop n' (wrap (i + 1)) eliteCount score reverse
                   (totalScore + s)%float
  end.

Definition build_reverse (st : Trivial) (eliteCount : Z)
  : res (Trivial * double) :=
  '(reverse, totalScore) <~
    reverse_loop (Z.to_nat eliteCount) 0 eliteCount
                 (_score st) (_reverse st) 0%float;
  Ok (with_reverse st reverse, totalScore).

(** *** The strategy cascade *)

(** The values returned by successive calls of [dist(mt)]. *)
Variable dist : nat -> double.

Definition draw : M double :=
  fun w => ([], Ok (dist (tick w),
                    mkWorld (engine w) (store_of w) (S (tick w)) (calls w))).

(** [mutator->mutate(_pool, _reverse, total, count, _pool[pos])] by the
    strategy of rank [k]. *)
Definition apply_mutator (k : nat) (mutator : Mutator)
           (total : double) (pos count : Z) : M unit :=
  fun w =>
    let st := engine w in
    match rd (_pool st) pos with
    | Ok offspring =>
        let c := mutate_offspring mutator (calls w) (store_of w)
                   (_pool st) (_reverse st) total count offspring in
        ([EvMutate pos k],
         Ok (tt, mkWorld st (poke (store_of w) offspring c)
                         (tick w) (S (calls w))))
    | Fault f => ([], Fault f)
    end.

(** The two overloads of the private [mutate]: [others] is the rest of the
    parameter pack, [k] the rank of [mutator] in the caller's list. *)
Fixpoint mutate (total : double) (pos count : Z) (k : nat)
         (mutator : Mutator) (others : list Mutator) : M unit :=
  match others with
  | [] => apply_mutator k mutator total pos count
  | next :: rest =>
      rnd <- draw ;;
      if (rnd <? threshold mutator)%float
      then apply_mutator k mutator total pos count
      else mutate total pos count (S k) next rest
  end.

(** [for(i = eliteCount; i < _count; ++i)]: [n] iterations remain. *)
Fixpoint recycle (n : nat) (i : Z) (totalScore : double) (eliteCount : Z)
         (mutator : Mutator) (others : list Mutator) : M unit :=
  match n with
  | O => ret tt
  | S n' =>
      mutate totalScore i eliteCount 0 mutator others ;;;
      recycle n' (wrap (i + 1)) totalScore eliteCount mutator others
  end.

(** *** [train] *)

(** The body of the generation loop. *)
Definition generation_body (visitor : bool) (eliteCount : Z)
           (mutator : Mutator) (others : list Mutator) : M unit :=
  st <- get_engine ;;
  r <- lift (build_reverse st eliteCount) ;;
  put_engine (fst r) ;;;
  (if visitor then emit (EvVisit eliteCount) else ret tt) ;;;
  recycle (Z.to_nat (_count st - eliteCount)) eliteCount (snd r)
          eliteCount mutator others.

(** The generation loop; [remaining] is [maxGen - generation], and
    [minimum] is [None] until [evaluate] has assigned it. *)
Fixpoint generations (env : Environment) (visitor : bool) (minErr : double)
         (eliteCount : Z) (mutator : Mutator) (others : list Mutator)
         (remaining : nat) (generation : Z) (minimum : option double)
  : M (Z * option double) :=
  match remaining with
  | O => ret (generation, minimum)
  | S remaining' =>
      m <- evaluate env ;;
      if (minErr <? m)%float then
        generation_body visitor eliteCount mutator others ;;;
        generations env visitor minErr eliteCount mutator others
                    remaining' (wrap (generation + 1)) (Some m)
      else ret (generation, Some m)
  end.

(** [for(i = 0; i < number; ++i) store[i] = env->clone(_pool[i]);] *)
Fixpoint extract (env : Environment) (n : nat) (i : Z) : M (list C) :=
  match n with
  | O => ret []
  | S n' =>
      st <- get_engine ;;
      p <- lift (rd (_pool st) i) ;;
      emit (EvClone p) ;;;
      w <- get_world ;;
      rest <- extract env n' (wrap (i + 1)) ;;
      ret (clone env (store_of w p) :: rest)
  end.

Definition release : M unit :=
  fun w => ([EvRelease (_count (engine w))], Ok (tt, w)).

Record outcome : Type := mkOutcome {
  generation_of : Z;
  minimum_of : option double;
  number_of : Z;
  stored : list C
}.

Definition train (env : Environment) (visitor : bool)
           (maxGen : Z) (minErr eliteSize : double) (size : Z)
           (mutator : Mutator) (others : list Mutator) : M outcome :=
  st <- get_engine ;;
  eliteCount <- lift (to_unsigned (of_unsigned (_count st) * eliteSize)) ;;
  reserve ;;;
  g <- generations env visitor minErr eliteCount mutator others
                   (Z.to_nat maxGen) 0 None ;;
  let number := if eliteCount <? size then eliteCount else size in
  store <- extract env (Z.to_nat number) 0 ;;
  release ;;;
  ret (mkOutcome (to_int (fst g)) (snd g) (to_int number) store).

(** A run of a freshly constructed engine. *)
Definition run (env : Environment) (pSize : Z) (visitor : bool)
           (maxGen : Z) (minErr eliteSize : double) (size : Z)
           (mutator : Mutator) (others : list Mutator)
  : list event * res (outcome * world) :=
  train env visitor maxGen minErr eliteSize size mutator others
        (initial_world env pSize).

Unset Implicit Arguments.
End Engine.

Arguments mkEnvironment {C}.
Arguments fresh {C}.
Arguments evaluate_candidate {C}.
Arguments clone {C}.
Arguments mkMutator {C}.
Arguments threshold {C}.
Arguments mutate_offspring {C}.
Arguments mkWorld {C}.
Arguments engine {C}.
Arguments store_of {C}.
Arguments tick {C}.
Arguments calls {C}.
Arguments mkOutcome {C}.
Arguments generation_of {C}.
Arguments minimum_of {C}.
Arguments number_of {C}.
Arguments stored {C}.
Arguments ret {C A}.
Arguments bind {C A B}.
Arguments emit {C}.
Arguments lift {C A}.
Arguments get_engine {C}.
Arguments get_world {C}.
Arguments reserve {C}.
Arguments release {C}.
Arguments draw {C}.

(** ** Parent selection of the example mutators *)

(** [for(index = 0; cumulator < position; cumulator += score[index++]);]
    The index sweeps the buffer upward from 0, so the loop is written over
    the cells that remain to be read. *)
Fixpoint accumulate (rest : list (option double)) (position cumulator : double)
         (index : Z) : res Z :=
  if (cumulator <? position)%float then
    match rest with
    | [] => Fault OutOfBounds
    | None :: _ => Fault Uninitialised
    | Some s :: rest' =>
        accumulate rest' position (cumulator + s)%float (wrap (index + 1))
    end
  else Ok index.

(** [position = s_range(mt) * total] followed by the accumulation loop. *)
Definition pick (score : list (option double)) (total u : double) : res Z :=
  accumulate score (u * total)%float 0%float 0.

(** The fix-up of [MateMutator::mutate] for [index == mate]. *)
Definition separate (size index mate : Z) : Z :=
  if index =? mate then
    if mate =? 0 then 1
    else if mate =? wrap (size - 1) then wrap (size - 2)
    else wrap (index + 1)
  else mate.

(** The two parents of [MateMutator::mutate], from its two draws. *)
Definition choose_parents (score : list (option double)) (total : double) (size : Z)
           (u1 u2 : double) : res (Z * Z) :=
  index <~ pick score total u1;
  mate <~ pick score total u2;
  Ok (index, separate size index mate).

(** The parent of [ClassicMutator::mutate]. *)
Definition choose_parent (score : list (option double)) (total u : double) : res Z :=
  pick score total u.

(** ** The example program *)

(** [#define]s of [trivial.cpp]; a decimal constant stands for the double
    nearest to it. *)
Definition POOL_SIZE : Z := 256.
Definition MAX_GENERATION : Z := 1000000.
Definition MIN_ERROR : double := 0.08.
Definition DATA_LENGTH : nat := 32.

(** A [char], and the integer it is promoted to. *)
Definition char : Type := Byte.byte.

Definition char_val (c : char) : Z :=
  let n := Z.of_N (Byte.to_N c) in if n <? 128 then n else n - 256.

(** A [Candidate] is its array [_data] of [DATA_LENGTH] chars. *)
Definition Candidate : Type := list char.

Definition char_at (data : Candidate) (i : nat) : char := nth i data Byte.x00.

(** [for(i = 0; i < n; ++i) data[i] = g(i);] *)
Definition assign_each (n : nat) (g : nat -> char) (data : Candidate)
  : Candidate :=
  fold_left (fun d i => set_nth d i (g i)) (seq 0 n) data.

(** [Candidate::Candidate()]: every char is ['\0']. *)
Definition Candidate_new : Candidate :=
  assign_each DATA_LENGTH (fun _ => Byte.x00) (repeat Byte.x00 DATA_LENGTH).

(** [Candidate::operator=]: [self] receives the chars of [other]. *)
Definition Candidate_assign (self other : Candidate) : Candidate :=
  assign_each DATA_LENGTH (char_at other) self.

(** [Candidate::Candidate(const Candidate &)]. *)
Definition Candidate_copy (orig : Candidate) : Candidate :=
  assign_each DATA_LENGTH (char_at orig) (repeat Byte.x00 DATA_LENGTH).

(** One turn of the loop of [Candidate::distance]. *)
Definition distance_step (self other : Candidate) (dist : double) (i : nat)
  : double :=
  let current := char_val (char_at self i) - char_val (char_at other i) in
  if current =? 0 then dist
  else
    let magnitude := if current <? 0 then - current else current in
    (dist + of_unsigned magnitude)%float.

(** [Candidate::distance]. *)
Definition distance (self other : Candidate) : double :=
  let dist :=
    fold_left (distance_step self other) (seq 0 DATA_LENGTH) 0%float in
  (dist / 7)%float.

(** The shared generator [s_mt] seen through the four distributions: the
    value each of them returns when it makes the [k]-th draw of the
    program. *)
Record Random : Type := mkRandom {
  s_cass : nat -> Z;
  s_upperDist : nat -> char;
  s_lowerDist : nat -> char;
  s_range : nat -> double
}.

(** [if(s_cass(mt) == 1) s_upperDist(mt) else s_lowerDist(mt)], draws [k]
    and [k + 1]. *)
Definition random_letter (R : Random) (k : nat) : char :=
  if s_cass R k =? 1 then s_upperDist R (S k) else s_lowerDist R (S k).

(** One turn of the outer loop of [Environment::reserve], its draws
    starting at [k]. *)
Definition reserve_candidate (R : Random) (k : nat) : Candidate :=
  let data :=
    assign_each (DATA_LENGTH - 1) (fun j => random_letter R (k + 2 * j))
                Candidate_new in
  set_nth data (DATA_LENGTH - 1) Byte.x00.

(** [Environment::reserve]: [size] candidates, each taking
    [2 * (DATA_LENGTH - 1)] draws. *)
Definition Environment_reserve (R : Random) (size : Z) (k : nat)
  : list Candidate :=
  map (fun i => reserve_candidate R (k + 2 * (DATA_LENGTH - 1) * i))
      (seq 0 (Z.to_nat size)).

(** [Environment::evaluate] and [Environment::clone]. *)
Definition Environment_evaluate (goal candidate : Candidate) : double :=
  distance goal candidate.

Definition Environment_clone (candidate : Candidate) : Candidate :=
  Candidate_copy candidate.

(** The environment of [main] as the engine sees it. *)
Definition example_environment (R : Random) (goal : Candidate)
  : Environment Candidate :=
  mkEnvironment (fun i => reserve_candidate R (2 * (DATA_LENGTH - 1) * i))
                (Environment_evaluate goal) Environment_clone.

Definition MateMutator_threshold : double := 0.8.
Definition ClassicMutator_threshold : double := 0.3.

(** The gene loop of [MateMutator::mutate], its draws starting at [k]. *)
Definition crossover (R : Random) (k : nat)
           (father mother junior : Candidate) : Candidate :=
  assign_each (DATA_LENGTH - 1)
              (fun i => if s_cass R (k + i) =? 0 then char_at father i
                        else char_at mother i)
              junior.

(** [MateMutator::mutate]: the content it leaves in [*offspring]. *)
Definition MateMutator_mutate (R : Random) (k : nat)
           (h : handle -> Candidate) (parents : list handle)
           (score : list (option double)) (total : double) (size : Z)
           (offspring : handle) : res Candidate :=
  '(index, mate) <~
    choose_parents score total size (s_range R k) (s_range R (S k));
  father <~ rd parents index;
  mother <~ rd parents mate;
  Ok (crossover R (k + 2) (h father) (h mother) (h offspring)).

(** [ClassicMutator::mutate]: the content it leaves in [*offspring]. *)
Definition ClassicMutator_mutate (R : Random) (k : nat)
           (h : handle -> Candidate) (parents : list handle)
           (score : list (option double)) (total : double) (size : Z)
           (offspring : handle) : res Candidate :=
  index <~ choose_parent score total (s_range R k);
  parent <~ rd parents index;
  let data := Candidate_assign (h offspring) (h parent) in
  let length := of_unsigned (Z.of_nat (DATA_LENGTH - 1)) in
  index <~ to_unsigned (s_range R (S k) * length)%float;
  wr data index (random_letter R (k + 2)).

(** ** A concrete run: scalar candidates *)

Module Scalar.
(** Candidates are integers, the score is the distance to a target. *)
Definition env (target : Z) : Environment Z :=
  mkEnvironment (fun i => 10 * Z.of_nat i + 7)
                (fun c => of_unsigned (Z.abs (c - target)))
                (fun c => c).

(** The same environment, except that it has no score for the candidate
    [bad]: it answers NaN. *)
Definition spoiled (target bad : Z) : Environment Z :=
  mkEnvironment (fun i => 10 * Z.of_nat i + 7)
                (fun c => if c =? bad then nan
                          else of_unsigned (Z.abs (c - target)))
                (fun c => c).

(** Copies the best candidate and moves it one step, the direction
    depending on the ordinal of the call. *)
Definition nudge (thr : double) : Mutator Z :=
  mkMutator thr
    (fun n h pool _ _ _ _ =>
       match pool with
       | [] => 0
       | p :: _ => if Nat.even n then h p - 1 else h p + 1
       end).

Definition coin (k : nat) : double := if Nat.even k then 0.9 else 0.1.

(** An engine of four candidates, [reserve] done. *)
Definition reserved : world Z :=
  let w := initial_world (env 0) 4 in
  with_engine w (with_pool (engine w) (seq 0 4)).

(** A store whose scores are not ranked yet, and an engine after a
    pass. *)
Definition scored : Trivial :=
  mkTrivial 4 [0; 1; 2; 3]%nat [3; 1; 2; 1]%float [None; None; None; None].

Definition ranked : world Z :=
  mkWorld (mkTrivial 4 [0; 1; 2; 3]%nat [7; 17; 27; 37]%float
                     [None; None; None; None])
          (fresh (env 0)) 0 0.

(** Three generations on four candidates, half of them elite. *)
Definition sample : list event * res (outcome Z * world Z) :=
  run coin (env 0) 4 true 3 0 0.5 4 (nudge 0.5) [nudge 0.25].
End Scalar.

Module Letters.
(** A generator that always answers lower case, the letter [a] and a
    quarter, and candidates spelling one letter [DATA_LENGTH - 1] times. *)
Definition rng : Random :=
  mkRandom (fun _ => 0) (fun _ => Byte.x41) (fun _ => Byte.x61)
           (fun _ => 0.25%float).

Definition letter (n : nat) : char :=
  match Byte.of_N (65 + N.of_nat n) with
  | Some c => c
  | None => Byte.x00
  end.

Definition word (n : nat) : Candidate :=
  repeat (letter n) (DATA_LENGTH - 1) ++ [Byte.x00].

(** A mutator that leaves the offspring as it is. *)
Definition keep : Mutator Candidate :=
  mkMutator 0.5 (fun _ h _ _ _ _ offspring => h offspring).

(** One candidate, which is the goal, and a budget of one generation. *)
Definition found : list event * res (outcome Candidate * world Candidate) :=
  run (fun _ => 0%float)
      (example_environment rng (reserve_candidate rng 0))
      1 true 1 MIN_ERROR 0.5 1 keep [].
End Letters.

(** ** Predicates used in the statements *)

(** A double that is not a NaN. *)
Definition number (x : double) : Prop := is_nan x = false.

(** The three arrays have [_count] cells and [_count] is an [unsigned int]. *)
Definition well_formed (st : Trivial) : Prop :=
  0 <= _count st < UINT_MOD /\
  Z.of_nat (length (_pool st)) = _count st /\
  Z.of_nat (length (_score st)) = _count st /\
  Z.of_nat (length (_reverse st)) = _count st.

(** Slot by slot, a handle and its score. *)
Definition pairs (st : Trivial) : list (handle * double) :=
  combine (_pool st) (_score st).

(** No score of [lo..hi] is above [p]; none is below [p].  These are the
    negations of the source's [>] and [<], which a NaN satisfies. *)
Definition not_above (s : list double) (lo hi : Z) (p : double) : Prop :=
  forall k x, lo <= k <= hi -> lookup s k = Some x -> (p <? x)%float = false.

Definition not_below (s : list double) (lo hi : Z) (p : double) : Prop :=
  forall k x, lo <= k <= hi -> lookup s k = Some x -> (x <? p)%float = false.

(** Every score of [lo..hi] is [<= p]; every one is [>= p]. *)
Definition le_on (s : list double) (lo hi : Z) (p : double) : Prop :=
  forall k x, lo <= k <= hi -> lookup s k = Some x -> (x <=? p)%float = true.

Definition ge_on (s : list double) (lo hi : Z) (p : double) : Prop :=
  forall k x, lo <= k <= hi -> lookup s k = Some x -> (p <=? x)%float = true.

Definition numbers_on (s : list double) (lo hi : Z) : Prop :=
  forall k x, lo <= k <= hi -> lookup s k = Some x -> number x.

Definition sorted_on (s : list double) (lo hi : Z) : Prop :=
  forall a b x y, lo <= a -> a <= b -> b <= hi ->
    lookup s a = Some x -> lookup s b = Some y -> (x <=? y)%float = true.

(** [scores[i] <= scores[i+1]] for all adjacent valid indices. *)
Definition ascending (s : list double) : Prop :=
  forall i x y, lookup s i = Some x -> lookup s (i + 1) = Some y ->
    (x <=? y)%float = true.

(** Each value is at most its predecessor. *)
Definition non_increasing (l : list double) : Prop :=
  forall n a b, nth_error l n = Some a -> nth_error l (S n) = Some b ->
    (b <=? a)%float = true.

(** The rank of the first strategy, in the caller's order, whose threshold
    exceeds its draw; [draws k] is the draw made for the strategy of rank
    [k], and [k] the rank of the head of [thresholds]. *)
Fixpoint first_exceeding (thresholds : list double) (draws : nat -> double)
         (k : nat) : option nat :=
  match thresholds with
  | [] => None
  | t :: rest =>
      if (draws k <? t)%float then Some k
      else first_exceeding rest draws (S k)
  end.

(** The strategy the cascade is specified to apply: the first whose
    threshold exceeds its draw, the last one when there is none. *)
Definition cascade_choice (thresholds : list double) (draws : nat -> double)
  : nat :=
  match first_exceeding thresholds draws 0 with
  | Some k => k
  | None => (length thresholds - 1)%nat
  end.

(** The slots [i, i+1, ..., i+n-1]. *)
Definition slots (i : Z) (n : nat) : list Z :=
  map (fun k => i + Z.of_nat k) (seq 0 n).

(** Roulette-wheel selection as specified: the first index whose cumulative
    weight, accumulated in rank order, exceeds [u]. *)
Fixpoint first_cumulative (weights : list double) (u cumulative : double)
         (index : Z) : option Z :=
  match weights with
  | [] => None
  | w :: rest =>
      let cumulative := (cumulative + w)%float in
      if (u <? cumulative)%float then Some index
      else first_cumulative rest u cumulative (index + 1)
  end.

(** A well-formed engine whose slots hold pairwise distinct handles. *)
Definition sound {C} (w : world C) : Prop :=
  well_formed (engine w) /\ NoDup (_pool (engine w)).

(** An environment that scores every candidate with a number. *)
Definition scores_numbers {C} (env : Environment C) : Prop :=
  forall c, number (evaluate_candidate env c).

(** The same mutator answering [t] to [threshold()]. *)
Definition retune {C} (t : double) (m : Mutator C) : Mutator C :=
  mkMutator t (mutate_offspring m).

(** The slot [pos] receives its offspring: the strategy the cascade
    selects, from the draws starting at [tick w], is called once and what
    it returns is written through the handle of the slot; nothing else
    changes but the counters. *)
Definition offspring_written {C} (dist : nat -> double) (total : double)
           (count : Z) (mutator : Mutator C) (others : list (Mutator C))
           (pos : Z) (w : world C) (ev : event) (w1 : world C) : Prop :=
  let sel := cascade_choice (map threshold (mutator :: others))
                            (fun j => dist (tick w + j)%nat) in
  exists offspring m,
    lookup (_pool (engine w)) pos = Some offspring /\
    nth_error (mutator :: others) sel = Some m /\
    ev = EvMutate pos sel /\
    engine w1 = engine w /\
    store_of w1 =
      poke (store_of w) offspring
           (mutate_offspring m (calls w) (store_of w) (_pool (engine w))
                             (_reverse (engine w)) total count offspring) /\
    tick w1 = (tick w + Nat.min (S sel) (length others))%nat /\
    calls w1 = S (calls w).

(** The slots from [pos] on receive their offspring one after the other,
    each call seeing what the calls before it wrote. *)
Inductive offspring_chain {C} (dist : nat -> double) (total : double)
          (count : Z) (mutator : Mutator C) (others : list (Mutator C))
  : Z -> world C -> list event -> world C -> Prop :=
| chain_done pos w : offspring_chain dist total count mutator others pos w [] w
| chain_slot pos w ev w1 evs w' :
    offspring_written dist total count mutator others pos w ev w1 ->
    offspring_chain dist total count mutator others (pos + 1) w1 evs w' ->
    offspring_chain dist total count mutator others pos w (ev :: evs) w'.

(** A candidate has its [DATA_LENGTH] chars. *)
Definition shaped (c : Candidate) : Prop := length c = DATA_LENGTH.

Definition is_letter (z : Z) : Prop := 65 <= z <= 90 \/ 97 <= z <= 122.

(** [DATA_LENGTH - 1] letters and the terminating ['\0']. *)
Definition spelled (c : Candidate) : Prop :=
  shaped c /\ char_at c (DATA_LENGTH - 1) = Byte.x00 /\
  forall i, (i < DATA_LENGTH - 1)%nat -> is_letter (char_val (char_at c i)).

(** The distributions return what they are declared to return. *)
Definition fair (R : Random) : Prop :=
  forall k,
    (s_cass R k = 0 \/ s_cass R k = 1) /\
    65 <= char_val (s_upperDist R k) <= 90 /\
    97 <= char_val (s_lowerDist R k) <= 122 /\
    (0 <=? s_range R k)%float = true /\ (s_range R k <? 1)%float = true.

(** The sum over the chars of [l] of the absolute differences. *)
Definition gap (l : list nat) (a b : Candidate) : Z :=
  fold_right
    (fun i s => Z.abs (char_val (char_at a i) - char_val (char_at b i)) + s)
    0 l.

(** The largest sum of differences two candidates can have. *)
Definition MAX_GAP : Z := 255 * Z.of_nat DATA_LENGTH.

(** [start, start + 1, ...], [n] integers. *)
Fixpoint zrange (n : nat) (start : Z) : list Z :=
  match n with
  | O => []
  | S n' => start :: zrange n' (start + 1)
  end.

(** Adding one difference to a sum of differences is exact in doubles. *)
Definition sums_exact : bool :=
  forallb
    (fun s =>
       forallb
         (fun d =>
            Leibniz.eqb (of_unsigned s + of_unsigned d)%float
                        (of_unsigned (s + d)))
         (zrange 255 1))
    (zrange (Z.to_nat (MAX_GAP - 254)) 0).

(** A positive sum of differences, divided by 7, is a number of sevenths
    at or above the computed [1/7], is above [MIN_ERROR], and grows with
    the sum. *)
Definition sevenths_checked : bool :=
  forallb
    (fun k =>
       (1 / 7 <=? of_unsigned k / 7)%float &&
       negb (of_unsigned k / 7 <=? MIN_ERROR)%float &&
       (of_unsigned (k - 1) / 7 <=? of_unsigned k / 7)%float &&
       negb (of_unsigned k / 7 <=? of_unsigned (k - 1) / 7)%float)
    (zrange (Z.to_nat MAX_GAP) 1).

(** The value of [cumulator] after the loop of the example mutators has
    added the first [k] cells of the board to [cumulator]. *)
Fixpoint weight_sum (board : list (option double)) (k : nat)
         (cumulator : double) : double :=
  match k, board with
  | S k', Some s :: rest => weight_sum rest k' (cumulator + s)%float
  | _, _ => cumulator
  end.

(** [st'] is obtained from [st] by exchanges of slots inside [lo..hi]. *)
Inductive reach (lo hi : Z) : Trivial -> Trivial -> Prop :=
| reach_refl st : reach lo hi st st
| reach_step st i j st1 st2 :
    lo <= i <= hi -> lo <= j <= hi ->
    exchange st i j = Ok st1 -> reach lo hi st1 st2 -> reach lo hi st st2.

(** The observer calls, the clone calls and the reserve/release calls of a
    log. *)
Definition visits (l : list event) : list Z :=
  flat_map (fun e => match e with EvVisit n => [n] | _ => [] end) l.

Definition clones (l : list event) : list handle :=
  flat_map (fun e => match e with EvClone p => [p] | _ => [] end) l.

Definition lifecycle (l : list event) : list event :=
  filter (fun e => match e with
                   | EvReserve _ | EvRelease _ => true
                   | _ => false
                   end) l.

(** The elite of an engine after a pass: [m] is the first score, each of
    the first [eliteCount] slots still pairs a handle with the score of
    the candidate it designates, and the scores are ascending when the
    environment scores with numbers only. *)
Definition elite_ranked {C} (env : Environment C) (eliteCount : Z)
           (w : world C) (m : double) : Prop :=
  (scores_numbers env -> ascending (_score (engine w))) /\
  lookup (_score (engine w)) 0 = Some m /\
  forall r h x, 0 <= r < eliteCount ->
    lookup (_pool (engine w)) r = Some h ->
    lookup (_score (engine w)) r = Some x ->
    x = evaluate_candidate env (store_of w h).

(** ** Arrays *)

Section ArrayFacts.
Context {A : Type}.
Implicit Types (l : list A) (i j : Z) (n m : nat).

Lemma lookup_Some_range l i x :
  lookup l i = Some x -> 0 <= i < Z.of_nat (length l).
Proof.
  unfold lookup. destruct (Z.ltb_spec i 0); [discriminate|].
  intros H0. assert (Hn : nth_error l (Z.to_nat i) <> None) by congruence.
  apply nth_error_Some in Hn. lia.
Qed.

Lemma lookup_in_range l i :
  0 <= i < Z.of_nat (length l) -> exists x, lookup l i = Some x.
Proof.
  intros H. unfold lookup. destruct (Z.ltb_spec i 0); [lia|].
  destruct (nth_error l (Z.to_nat i)) eqn:E; [eauto|].
  apply nth_error_None in E. lia.
Qed.

Lemma lookup_None l i :
  i < 0 \/ Z.of_nat (length l) <= i -> lookup l i = None.
Proof.
  intros H. destruct (lookup l i) eqn:E; [|reflexivity].
  apply lookup_Some_range in E. lia.
Qed.

Lemma length_set_nth l n x : length (set_nth l n x) = length l.
Proof.
  revert n. induction l as [|y t IH]; intros [|n]; simpl; auto.
Qed.

Lemma length_upd l i x : length (upd l i x) = length l.
Proof.
  unfold upd. destruct (i <? 0); [reflexivity|apply length_set_nth].
Qed.

Lemma nth_set_nth_same l n x :
  (n < length l)%nat -> nth_error (set_nth l n x) n = Some x.
Proof.
  revert n. induction l as [|y t IH]; intros [|n] H; simpl in *;
    try lia; [reflexivity|]. apply IH. lia.
Qed.

Lemma nth_set_nth_other l n m x :
  n <> m -> nth_error (set_nth l n x) m = nth_error l m.
Proof.
  revert n m. induction l as [|y t IH]; intros [|n] [|m] H; simpl;
    try reflexivity; try congruence. apply IH. congruence.
Qed.

Lemma lookup_upd_same l i x :
  0 <= i < Z.of_nat (length l) -> lookup (upd l i x) i = Some x.
Proof.
  intros H. unfold lookup, upd. destruct (Z.ltb_spec i 0); [lia|].
  apply nth_set_nth_same. lia.
Qed.

Lemma lookup_upd_other l i j x :
  i <> j -> lookup (upd l i x) j = lookup l j.
Proof.
  intros H. unfold lookup, upd.
  destruct (Z.ltb_spec j 0); [reflexivity|].
  destruct (Z.ltb_spec i 0); [reflexivity|].
  apply nth_set_nth_other. lia.
Qed.

Lemma perm_set_nth l n a b :
  nth_error l n = Some a -> Permutation (a :: set_nth l n b) (b :: l).
Proof.
  revert n. induction l as [|y t IH]; intros [|n] H; simpl in *;
    try discriminate.
  - injection H as ->. apply perm_swap.
  - eapply perm_trans; [apply perm_swap|].
    eapply perm_trans; [apply perm_skip, (IH _ H)|]. apply perm_swap.
Qed.

Lemma perm_upd l i a b :
  lookup l i = Some a -> Permutation (a :: upd l i b) (b :: l).
Proof.
  unfold lookup, upd. destruct (i <? 0); [discriminate|].
  apply perm_set_nth.
Qed.

(** Exchanging two cells is a permutation. *)
Lemma perm_exchange l i j a b :
  lookup l i = Some a -> lookup l j = Some b ->
  Permutation (upd (upd l i b) j a) l.
Proof.
  intros Hi Hj.
  assert (Hj' : lookup (upd l i b) j = Some b).
  { destruct (Z.eq_dec i j) as [->|Hne].
    - apply lookup_upd_same. eapply lookup_Some_range; eauto.
    - rewrite lookup_upd_other; auto. }
  apply Permutation_cons_inv with (a := b).
  eapply perm_trans; [apply (perm_upd _ _ _ a Hj')|].
  apply (perm_upd _ _ _ b Hi).
Qed.

Lemma rd_Ok l i x : rd l i = Ok x <-> lookup l i = Some x.
Proof.
  unfold rd. destruct (lookup l i); split; congruence.
Qed.

Lemma wr_Ok l i x l' :
  wr l i x = Ok l' <-> (exists y, lookup l i = Some y) /\ l' = upd l i x.
Proof.
  unfold wr. destruct (lookup l i); split.
  - intros H. injection H as <-. eauto.
  - intros [_ ->]. reflexivity.
  - discriminate.
  - intros [[y Hy] _]. discriminate.
Qed.
End ArrayFacts.

Lemma combine_set_nth {A B} (l : list A) (r : list B) n x y :
  combine (set_nth l n x) (set_nth r n y) = set_nth (combine l r) n (x, y).
Proof.
  revert r n. induction l as [|a t IH]; intros [|b r] [|n]; simpl;
    try reflexivity. f_equal. apply IH.
Qed.

Lemma combine_upd {A B} (l : list A) (r : list B) i x y :
  combine (upd l i x) (upd r i y) = upd (combine l r) i (x, y).
Proof.
  unfold upd. destruct (i <? 0); [reflexivity|apply combine_set_nth].
Qed.

Lemma lookup_combine {A B} (l : list A) (r : list B) i x y :
  lookup l i = Some x -> lookup r i = Some y ->
  lookup (combine l r) i = Some (x, y).
Proof.
  unfold lookup. destruct (i <? 0); [discriminate|].
  generalize (Z.to_nat i) as n. revert r.
  induction l as [|a t IH]; intros [|b r] [|n]; simpl; try discriminate.
  - congruence.
  - apply IH.
Qed.


(** ** Comparisons of doubles *)

(** The comparisons of the kernel's doubles are those of their
    specification, [SFcompare]. *)
Lemma SFcompare_refl a : a <> S754_nan -> SFcompare a a = Some Eq.
Proof.
  destruct a as [s|s| |s m e]; intros H; try congruence;
    try (destruct s; reflexivity).
  simpl. rewrite Z.compare_refl.
  change (Pos.compare_cont Eq m m) with (Pos.compare m m).
  rewrite Pos.compare_refl. destruct s; reflexivity.
Qed.

Lemma SFcompare_antisym a b :
  SFcompare b a = option_map CompOpp (SFcompare a b).
Proof.
  destruct a as [s|s| |s m e], b as [t|t| |t n f]; simpl;
    try reflexivity; try (destruct s; reflexivity);
    try (destruct t; reflexivity);
    try (destruct s, t; reflexivity).
  change (Pos.compare_cont Eq n m) with (Pos.compare n m).
  change (Pos.compare_cont Eq m n) with (Pos.compare m n).
  rewrite (Z.compare_antisym e f), (Pos.compare_antisym m n).
  destruct s, t; try reflexivity;
    destruct (e ?= f); simpl; try reflexivity;
    destruct (m ?= n)%positive; reflexivity.
Qed.

Lemma SFcompare_trans a b c :
  (SFcompare a b = Some Lt \/ SFcompare a b = Some Eq) ->
  (SFcompare b c = Some Lt \/ SFcompare b c = Some Eq) ->
  SFcompare a c = Some Lt \/ SFcompare a c = Some Eq.
Proof.
  destruct a as [s|s| |s m e], b as [t|t| |t n f], c as [u|u| |u o g]; simpl;
    try (intros [H|H]; discriminate H);
    try (intros _ [H|H]; discriminate H);
    try (destruct s; try destruct t; try destruct u; simpl;
         intros [H|H] [H'|H']; try discriminate; auto; fail).
  change (Pos.compare_cont Eq m n) with (Pos.compare m n).
  change (Pos.compare_cont Eq n o) with (Pos.compare n o).
  change (Pos.compare_cont Eq m o) with (Pos.compare m o).
  destruct s, t, u; simpl;
    try (intros [H|H] [H'|H']; try discriminate; auto; fail);
    destruct (Z.compare_spec e f); destruct (Z.compare_spec f g);
    destruct (Z.compare_spec e g); try lia;
    destruct (Pos.compare_spec m n); destruct (Pos.compare_spec n o);
    destruct (Pos.compare_spec m o); try lia; simpl;
    intros [A|A] [B|B]; try discriminate; auto.
Qed.

Lemma number_spec x : number x <-> Prim2SF x <> S754_nan.
Proof.
  unfold number, is_nan. rewrite FloatAxioms.eqb_spec. unfold SFeqb. split.
  - intros H E. rewrite E in H. discriminate.
  - intros H. rewrite (SFcompare_refl _ H). reflexivity.
Qed.

(** [x < x] is false of every double, NaN included. *)
Lemma ltb_irrefl x : (x <? x)%float = false.
Proof.
  rewrite ltb_spec. unfold SFltb.
  destruct (Prim2SF x) eqn:E; try reflexivity;
    rewrite SFcompare_refl by discriminate; reflexivity.
Qed.

Lemma ltb_asym x y : (x <? y)%float = true -> (y <? x)%float = false.
Proof.
  rewrite !ltb_spec. unfold SFltb.
  rewrite (SFcompare_antisym (Prim2SF x) (Prim2SF y)).
  destruct (SFcompare (Prim2SF x) (Prim2SF y)) as [[]|]; simpl; congruence.
Qed.

Lemma leb_number x y : (x <=? y)%float = true -> number x /\ number y.
Proof.
  rewrite leb_spec, !number_spec. unfold SFleb.
  destruct (Prim2SF x), (Prim2SF y); simpl; try discriminate;
    intros _; split; discriminate.
Qed.

Lemma leb_refl x : number x -> (x <=? x)%float = true.
Proof.
  rewrite number_spec, leb_spec. intros H. unfold SFleb.
  rewrite (SFcompare_refl _ H). reflexivity.
Qed.

Lemma leb_trans x y z :
  (x <=? y)%float = true -> (y <=? z)%float = true -> (x <=? z)%float = true.
Proof.
  rewrite !leb_spec. unfold SFleb. intros H1 H2.
  assert (B1 : SFcompare (Prim2SF x) (Prim2SF y) = Some Lt \/
               SFcompare (Prim2SF x) (Prim2SF y) = Some Eq)
    by (destruct (SFcompare _ _) as [[]|]; auto; discriminate).
  assert (B2 : SFcompare (Prim2SF y) (Prim2SF z) = Some Lt \/
               SFcompare (Prim2SF y) (Prim2SF z) = Some Eq)
    by (destruct (SFcompare (Prim2SF y) _) as [[]|]; auto; discriminate).
  destruct (SFcompare_trans _ _ _ B1 B2) as [-> | ->]; reflexivity.
Qed.

(** On numbers, "not above" is "at most". *)
Lemma not_ltb_leb x y :
  number x -> number y -> (y <? x)%float = false -> (x <=? y)%float = true.
Proof.
  rewrite !number_spec, ltb_spec, leb_spec. unfold SFltb, SFleb.
  rewrite (SFcompare_antisym (Prim2SF x) (Prim2SF y)).
  intros Hx Hy.
  destruct (Prim2SF x), (Prim2SF y); try congruence; simpl;
    try (destruct s; try destruct s0; simpl; congruence).
  destruct s, s0; simpl; try congruence;
    destruct (e ?= e0); simpl; try congruence;
    destruct (Pos.compare_cont Eq m m0); simpl; congruence.
Qed.

Lemma leb_not_ltb x y : (x <=? y)%float = true -> (y <? x)%float = false.
Proof.
  rewrite ltb_spec, leb_spec. unfold SFltb, SFleb.
  rewrite (SFcompare_antisym (Prim2SF x) (Prim2SF y)).
  destruct (SFcompare (Prim2SF x) (Prim2SF y)) as [[]|]; simpl; congruence.
Qed.

Lemma ltb_leb x y : (x <? y)%float = true -> (x <=? y)%float = true.
Proof.
  rewrite ltb_spec, leb_spec. unfold SFltb, SFleb.
  destruct (SFcompare (Prim2SF x) (Prim2SF y)) as [[]|]; simpl; congruence.
Qed.

(** ** Rounding of doubles *)









(** ** Wrap-around *)

Lemma wrap_small z : 0 <= z < UINT_MOD -> wrap z = z.
Proof. intros H. unfold wrap. apply Z.mod_small. exact H. Qed.

Lemma wrap_succ_pred z : 0 <= z < UINT_MOD -> wrap (wrap (z - 1) + 1) = z.
Proof.
  intros H. unfold wrap. rewrite Zplus_mod_idemp_l.
  replace (z - 1 + 1) with z by lia. apply Z.mod_small. exact H.
Qed.

Lemma wrap_pred_succ z : 0 <= z < UINT_MOD -> wrap (wrap (z + 1) - 1) = z.
Proof.
  intros H. unfold wrap. rewrite Zminus_mod_idemp_l.
  replace (z + 1 - 1) with z by lia. apply Z.mod_small. exact H.
Qed.


(** ** The scans of [partition] *)

(** The upward scan stops at or before any cell [t] that is not below the
    pivot, and every cell it passes is below the pivot. *)
Lemma scan_up_stops s p t y :
  lookup s t = Some y -> (y <? p)%float = false -> t < UINT_MOD ->
  forall fuel i i1,
    wrap (i + 1) = i1 -> 0 <= i1 <= t -> Z.of_nat fuel > t - i1 ->
    exists i' x,
      scan_up fuel s p i = Ok i' /\ i1 <= i' <= t /\
      lookup s i' = Some x /\ (x <? p)%float = false /\
      (forall k z, i1 <= k < i' -> lookup s k = Some z ->
                   (z <? p)%float = true).
Proof.
  intros Ht Hy Hmax. induction fuel as [|f IH]; intros i i1 Hw Hi Hf; [lia|].
  simpl. rewrite Hw.
  destruct (lookup_in_range s i1) as [x Hx].
  { apply lookup_Some_range in Ht. lia. }
  unfold rd. rewrite Hx. simpl.
  destruct (x <? p)%float eqn:E.
  - assert (i1 <> t).
    { intros ->. rewrite Hx in Ht. injection Ht as ->. congruence. }
    destruct (IH i1 (i1 + 1)) as (i' & x' & Hs & Hr & Hl & Hp & Hbelow);
      [apply wrap_small; lia|lia|lia|].
    exists i', x'. repeat split; try assumption; try lia.
    intros k z Hk Hz. destruct (Z.eq_dec k i1) as [->|Hne].
    + rewrite Hx in Hz. injection Hz as <-. exact E.
    + apply (Hbelow k z); [lia|exact Hz].
  - exists i1, x. repeat split; try assumption; try lia.
Qed.

Lemma scan_down_stops s p t y :
  lookup s t = Some y -> (p <? y)%float = false ->
  forall fuel j j1,
    wrap (j - 1) = j1 -> t <= j1 -> j1 < Z.of_nat (length s) ->
    Z.of_nat (length s) <= UINT_MOD -> Z.of_nat fuel > j1 - t ->
    exists j' x,
      scan_down fuel s p j = Ok j' /\ t <= j' <= j1 /\
      lookup s j' = Some x /\ (p <? x)%float = false /\
      (forall k z, j' < k <= j1 -> lookup s k = Some z ->
                   (p <? z)%float = true).
Proof.
  intros Ht Hy. pose proof (lookup_Some_range _ _ _ Ht) as Hrange.
  induction fuel as [|f IH]; intros j j1 Hw Hj Hlen Hmax Hf; [lia|].
  simpl. rewrite Hw.
  destruct (lookup_in_range s j1) as [x Hx]; [lia|].
  unfold rd. rewrite Hx. simpl.
  destruct (p <? x)%float eqn:E.
  - assert (j1 <> t).
    { intros ->. rewrite Hx in Ht. injection Ht as ->. congruence. }
    destruct (IH j1 (j1 - 1)) as (j' & x' & Hs & Hr & Hl & Hp & Habove);
      [apply wrap_small; lia|lia|lia|lia|lia|].
    exists j', x'. repeat split; try assumption; try lia.
    intros k z Hk Hz. destruct (Z.eq_dec k j1) as [->|Hne].
    + rewrite Hx in Hz. injection Hz as <-. exact E.
    + apply (Habove k z); [lia|exact Hz].
  - exists j1, x. repeat split; try assumption; try lia.
Qed.

(** ** Exchanges *)

Lemma lookup_upd_defined {A} (l : list A) i j x y :
  lookup l j = Some y -> exists z, lookup (upd l i x) j = Some z.
Proof.
  intros H. apply lookup_in_range. rewrite length_upd.
  eapply lookup_Some_range; eauto.
Qed.

Lemma exchange_Ok st i j si pi sj pj :
  lookup (_score st) i = Some si -> lookup (_pool st) i = Some pi ->
  lookup (_score st) j = Some sj -> lookup (_pool st) j = Some pj ->
  exchange st i j =
    Ok (with_pool (with_score st (upd (upd (_score st) i sj) j si))
                  (upd (upd (_pool st) i pj) j pi)).
Proof.
  intros Hsi Hpi Hsj Hpj. unfold exchange, rd, wr.
  rewrite Hsi, Hpi, Hsj, Hpj. simpl.
  destruct (lookup_upd_defined (_score st) i j sj sj Hsj) as [z ->].
  destruct (lookup_upd_defined (_pool st) i j pj pj Hpj) as [z' ->].
  reflexivity.
Qed.

Lemma exchange_inv st i j st' :
  exchange st i j = Ok st' ->
  exists si pi sj pj,
    lookup (_score st) i = Some si /\ lookup (_pool st) i = Some pi /\
    lookup (_score st) j = Some sj /\ lookup (_pool st) j = Some pj /\
    st' = with_pool (with_score st (upd (upd (_score st) i sj) j si))
                    (upd (upd (_pool st) i pj) j pi).
Proof.
  intros H.
  destruct (lookup (_score st) i) as [si|] eqn:Hsi;
    [|unfold exchange, rd in H; rewrite Hsi in H; discriminate].
  destruct (lookup (_pool st) i) as [pi|] eqn:Hpi;
    [|unfold exchange, rd in H; rewrite Hsi, Hpi in H; discriminate].
  destruct (lookup (_score st) j) as [sj|] eqn:Hsj;
    [|unfold exchange, rd in H; rewrite Hsi, Hpi, Hsj in H; discriminate].
  destruct (lookup (_pool st) j) as [pj|] eqn:Hpj;
    [|unfold exchange, rd, wr in H; rewrite Hsi, Hpi, Hsj, Hpj in H;
      discriminate].
  rewrite (exchange_Ok _ _ _ _ _ _ _ Hsi Hpi Hsj Hpj) in H.
  injection H as <-. exists si, pi, sj, pj. auto.
Qed.

(** The content of a cell after an exchange. *)
Lemma lookup_exchanged {A} (l : list A) i j a b k :
  lookup l i = Some a -> lookup l j = Some b ->
  lookup (upd (upd l i b) j a) k =
    if k =? j then Some a else if k =? i then Some b else lookup l k.
Proof.
  intros Hi Hj.
  destruct (Z.eqb_spec k j) as [->|Hkj].
  - apply lookup_upd_same. rewrite length_upd.
    eapply lookup_Some_range; eauto.
  - rewrite lookup_upd_other by congruence.
    destruct (Z.eqb_spec k i) as [->|Hki].
    + apply lookup_upd_same. eapply lookup_Some_range; eauto.
    + apply lookup_upd_other. congruence.
Qed.

Section Reach.
Variables lo hi : Z.

Lemma reach_trans a b c : reach lo hi a b -> reach lo hi b c -> reach lo hi a c.
Proof.
  induction 1 as [|st i j st1 st2 Hi Hj Hex _ IH]; intros Hc; [exact Hc|].
  exact (reach_step lo hi st i j st1 c Hi Hj Hex (IH Hc)).
Qed.

Lemma reach_one st i j st' :
  lo <= i <= hi -> lo <= j <= hi -> exchange st i j = Ok st' ->
  reach lo hi st st'.
Proof.
  intros Hi Hj Hex.
  exact (reach_step lo hi st i j st' st' Hi Hj Hex (reach_refl lo hi st')).
Qed.

Lemma reach_mono lo' hi' a b :
  lo' <= lo -> hi <= hi' -> reach lo hi a b -> reach lo' hi' a b.
Proof.
  intros Hlo Hhi.
  induction 1 as [|st i j st1 st2 Hi Hj Hex _ IH]; [apply reach_refl|].
  apply (reach_step lo' hi' st i j st1 st2); try assumption; lia.
Qed.

Lemma reach_well_formed a b : reach lo hi a b -> well_formed a -> well_formed b.
Proof.
  induction 1 as [|st i j st1 st2 Hi Hj Hex _ IH]; intros Hwf; [exact Hwf|].
  apply IH. apply exchange_inv in Hex.
  destruct Hex as (si & pi & sj & pj & _ & _ & _ & _ & ->).
  unfold well_formed in *. simpl. rewrite !length_upd. exact Hwf.
Qed.

Lemma reach_frame a b :
  reach lo hi a b -> _count b = _count a /\ _reverse b = _reverse a.
Proof.
  induction 1 as [|st i j st1 st2 Hi Hj Hex _ IH]; [auto|].
  apply exchange_inv in Hex.
  destruct Hex as (si & pi & sj & pj & _ & _ & _ & _ & ->).
  simpl in IH. exact IH.
Qed.

Lemma reach_pairs a b : reach lo hi a b -> Permutation (pairs a) (pairs b).
Proof.
  induction 1 as [|st i j st1 st2 Hi Hj Hex _ IH]; [apply Permutation_refl|].
  eapply perm_trans; [|exact IH]. apply exchange_inv in Hex.
  destruct Hex as (si & pi & sj & pj & Hsi & Hpi & Hsj & Hpj & ->).
  unfold pairs. simpl. rewrite !combine_upd. apply Permutation_sym.
  apply perm_exchange; apply lookup_combine; assumption.
Qed.

Lemma reach_outside a b k :
  reach lo hi a b -> k < lo \/ hi < k ->
  lookup (_score b) k = lookup (_score a) k.
Proof.
  induction 1 as [|st i j st1 st2 Hi Hj Hex _ IH]; intros Hk; [reflexivity|].
  rewrite IH by exact Hk. apply exchange_inv in Hex.
  destruct Hex as (si & pi & sj & pj & Hsi & Hpi & Hsj & Hpj & ->).
  simpl. rewrite (lookup_exchanged _ _ _ _ _ k Hsi Hsj).
  destruct (Z.eqb_spec k j); [lia|]. destruct (Z.eqb_spec k i); [lia|].
  reflexivity.
Qed.

(** A property of all scores in [lo..hi] survives. *)
Lemma reach_all (P : double -> Prop) a b :
  reach lo hi a b ->
  (forall k x, lo <= k <= hi -> lookup (_score a) k = Some x -> P x) ->
  (forall k x, lo <= k <= hi -> lookup (_score b) k = Some x -> P x).
Proof.
  induction 1 as [|st i j st1 st2 Hi Hj Hex _ IH]; intros Ha; [exact Ha|].
  apply IH. apply exchange_inv in Hex.
  destruct Hex as (si & pi & sj & pj & Hsi & Hpi & Hsj & Hpj & ->).
  simpl. intros k x Hk. rewrite (lookup_exchanged _ _ _ _ _ k Hsi Hsj).
  destruct (Z.eqb_spec k j) as [->|_].
  - intros [= <-]. exact (Ha i si Hi Hsi).
  - destruct (Z.eqb_spec k i) as [->|_].
    + intros [= <-]. exact (Ha j sj Hj Hsj).
    + apply Ha. exact Hk.
Qed.
End Reach.


(** ** [partition] *)

(** One turn of the [for(;;)] loop keeps: nothing in [lo..i] is above the
    pivot, nothing in [j..hi] is below the pivot, and each scan has a cell
    ([t], [t']) at which it must stop.  The comparisons are used as the
    source makes them, so that a NaN score is covered: it is neither above
    nor below the pivot. *)
Lemma partition_loop_spec lo hi p :
  0 <= lo ->
  forall fuel st i j i1 j1 t t' y y',
    well_formed st -> hi < _count st ->
    wrap (i + 1) = i1 -> wrap (j - 1) = j1 ->
    lo <= i1 -> j1 <= hi -> i1 <= j1 + 1 ->
    not_above (_score st) lo (i1 - 1) p ->
    not_below (_score st) (j1 + 1) hi p ->
    i1 <= t <= hi -> lookup (_score st) t = Some y ->
    (y <? p)%float = false ->
    lo <= t' <= j1 -> lookup (_score st) t' = Some y' ->
    (p <? y')%float = false ->
    j1 < hi \/ t < hi ->
    Z.of_nat fuel > j1 - i1 + 1 ->
    exists st' j',
      partition_loop fuel st p i j = Ok (st', j') /\
      reach lo hi st st' /\ lo <= j' < hi /\
      not_above (_score st') lo j' p /\ not_below (_score st') (j' + 1) hi p.
Proof.
  intros Hlo. induction fuel as [|f IH];
    intros st i j i1 j1 t t' y y' Hwf Hhi Hwi Hwj Hi1 Hj1 Hij Hle Hge
           Ht Hty Hyp Ht' Hty' Hyp' Hlast Hfuel; [lia|].
  destruct Hwf as (Hc & Hpool & Hscore & Hrev).
  cbn [partition_loop].
  destruct (scan_up_stops (_score st) p t y Hty Hyp ltac:(lia)
              (S (length (_score st))) i i1 Hwi ltac:(lia) ltac:(lia))
    as (i' & xi & -> & Hri & Hxi & Hpxi & Hbelow).
  cbn [rbind].
  destruct (scan_down_stops (_score st) p t' y' Hty' Hyp'
              (S (length (_score st))) j j1 Hwj ltac:(lia) ltac:(lia)
              ltac:(lia) ltac:(lia))
    as (j' & xj & -> & Hrj & Hxj & Hpxj & Habove).
  cbn [rbind]. destruct (Z.geb_spec i' j') as [Hcross|Hapart].
  - exists st, j'. split; [reflexivity|]. split; [apply reach_refl|].
    split; [lia|]. split.
    + intros k x Hk Hx.
      destruct (Z_lt_le_dec k i1); [apply (Hle k x); [lia|exact Hx]|].
      destruct (Z_lt_le_dec k i').
      * apply ltb_asym, (Hbelow k x); [lia|exact Hx].
      * assert (k = j') by lia. subst k. rewrite Hxj in Hx.
        injection Hx as <-. exact Hpxj.
    + intros k x Hk Hx.
      destruct (Z_lt_le_dec j1 k); [apply (Hge k x); [lia|exact Hx]|].
      apply ltb_asym, (Habove k x); [lia|exact Hx].
  - destruct (lookup_in_range (_pool st) i') as [pi Hpi]; [lia|].
    destruct (lookup_in_range (_pool st) j') as [pj Hpj]; [lia|].
    pose proof (exchange_Ok st i' j' xi pi xj pj Hxi Hpi Hxj Hpj) as Hex.
    rewrite Hex. cbn [rbind].
    set (st1 := with_pool _ _) in *.
    assert (Hlk : forall k, lookup (_score st1) k =
                    if k =? j' then Some xi
                    else if k =? i' then Some xj
                    else lookup (_score st) k).
    { intros k. apply lookup_exchanged; assumption. }
    destruct (IH st1 i' j' (i' + 1) (j' - 1) j' i' xi xj)
      as (st' & r & Hrun & Hreach & Hr & Hle' & Hge').
    + unfold well_formed, st1. simpl. rewrite !length_upd. auto.
    + exact Hhi.
    + apply wrap_small. lia.
    + apply wrap_small. lia.
    + lia.
    + lia.
    + lia.
    + intros k x Hk. rewrite Hlk.
      destruct (Z.eqb_spec k j'); [lia|].
      destruct (Z.eqb_spec k i') as [->|Hne].
      * intros [= <-]. exact Hpxj.
      * intros Hx.
        destruct (Z_lt_le_dec k i1); [apply (Hle k x); [lia|exact Hx]|].
        apply ltb_asym, (Hbelow k x); [lia|exact Hx].
    + intros k x Hk. rewrite Hlk.
      destruct (Z.eqb_spec k j') as [->|Hne].
      * intros [= <-]. exact Hpxi.
      * destruct (Z.eqb_spec k i'); [lia|]. intros Hx.
        destruct (Z_lt_le_dec j1 k); [apply (Hge k x); [lia|exact Hx]|].
        apply ltb_asym, (Habove k x); [lia|exact Hx].
    + lia.
    + rewrite Hlk, Z.eqb_refl. reflexivity.
    + exact Hpxi.
    + lia.
    + rewrite Hlk. destruct (Z.eqb_spec i' j'); [lia|].
      rewrite Z.eqb_refl. reflexivity.
    + exact Hpxj.
    + left. lia.
    + lia.
    + exists st', r. split; [exact Hrun|]. split; [|auto].
      apply (reach_step lo hi st i' j' st1 st'); try assumption; lia.
Qed.

(** [partition] on an in-bounds range of at least two cells returns a cut
    [j] with [lo <= j < hi], nothing up to [j] above the pivot and nothing
    after it below the pivot; the pivot is the score of cell [lo]. *)
Lemma partition_spec st lo hi :
  well_formed st -> 0 <= lo -> lo < hi -> hi < _count st ->
  exists st' j p,
    lookup (_score st) lo = Some p /\
    partition st lo hi = Ok (st', j) /\ reach lo hi st st' /\
    lo <= j < hi /\
    not_above (_score st') lo j p /\ not_below (_score st') (j + 1) hi p.
Proof.
  intros Hwf Hlo Hlt Hhi. pose proof Hwf as (Hc & Hpool & Hscore & Hrev).
  destruct (lookup_in_range (_score st) lo) as [p Hp]; [lia|].
  unfold partition, rd. rewrite Hp. simpl.
  destruct (partition_loop_spec lo hi p Hlo (S (length (_score st))) st
              (wrap (lo - 1)) (wrap (hi + 1)) lo hi lo lo p p)
    as (st' & j & Hrun & Hreach & Hj & Hle & Hge); try assumption; try lia.
  - apply wrap_succ_pred. lia.
  - apply wrap_pred_succ. lia.
  - intros k x Hk. lia.
  - intros k x Hk. lia.
  - apply ltb_irrefl.
  - apply ltb_irrefl.
  - exists st', j, p. split; [reflexivity|]. split; [exact Hrun|].
    split; [exact Hreach|]. split; [exact Hj|]. split; assumption.
Qed.

(** ** [qsort] *)

(** Scores that are numbers: what the source compares as "not above" and
    "not below" is then an order. *)
Lemma numbers_le_on s lo hi p :
  number p -> numbers_on s lo hi -> not_above s lo hi p -> le_on s lo hi p.
Proof.
  intros Hp Hn Hle k x Hk Hx.
  apply not_ltb_leb; [exact (Hn k x Hk Hx)|exact Hp|exact (Hle k x Hk Hx)].
Qed.

Lemma numbers_ge_on s lo hi p :
  number p -> numbers_on s lo hi -> not_below s lo hi p -> ge_on s lo hi p.
Proof.
  intros Hp Hn Hge k x Hk Hx.
  apply not_ltb_leb; [exact Hp|exact (Hn k x Hk Hx)|exact (Hge k x Hk Hx)].
Qed.

Lemma numbers_on_sub s lo hi lo' hi' :
  lo <= lo' -> hi' <= hi -> numbers_on s lo hi -> numbers_on s lo' hi'.
Proof. intros Hl Hh H k x Hk. apply H. lia. Qed.

(** [qsort] on an in-bounds range returns whatever the scores are, having
    only exchanged slots of the range; it leaves the range sorted when
    the scores of the range are numbers. *)
Lemma qsort_spec :
  forall fuel st lo hi,
    well_formed st -> 0 <= lo -> lo <= hi -> hi < _count st ->
    Z.of_nat fuel > hi - lo ->
    exists st',
      qsort fuel st lo hi = Ok st' /\ reach lo hi st st' /\
      (numbers_on (_score st) lo hi -> sorted_on (_score st') lo hi).
Proof.
  induction fuel as [|f IH]; intros st lo hi Hwf Hlo Hle Hhi Hfuel; [lia|].
  simpl. destruct (Z.ltb_spec lo hi) as [Hlt|Hge].
  - destruct (partition_spec st lo hi Hwf Hlo Hlt Hhi)
      as (st1 & j & p & Hpivot & -> & Hr1 & Hj & Hlow & Hhigh).
    simpl. pose proof (reach_well_formed _ _ _ _ Hr1 Hwf) as Hwf1.
    pose proof (reach_frame _ _ _ _ Hr1) as [Hc1 _].
    pose proof Hwf as (Hc & _).
    rewrite (wrap_small (j + 1)) by lia.
    assert (Hjoin : forall s, sorted_on s lo j -> sorted_on s (j + 1) hi ->
                      le_on s lo j p -> ge_on s (j + 1) hi p ->
                      sorted_on s lo hi).
    { intros s Hsl Hsr Hl Hg a b x y Ha Hab Hb Hx Hy.
      destruct (Z_le_gt_dec b j); [apply (Hsl a b); auto|].
      destruct (Z_le_gt_dec (j + 1) a); [apply (Hsr a b); auto|].
      apply leb_trans with p; [apply (Hl a x)|apply (Hg b y)];
        auto; lia. }
    assert (Hnum1 : numbers_on (_score st) lo hi ->
                    number p /\ numbers_on (_score st1) lo hi).
    { intros Hn. split; [apply (Hn lo p); [lia|exact Hpivot]|].
      exact (reach_all lo hi number st st1 Hr1 Hn). }
    destruct (wrap (j - lo) <? wrap (hi - (j + 1))).
    + destruct (IH st1 lo j) as (st2 & -> & Hr2 & Hs2);
        try assumption; try lia.
      simpl. pose proof (reach_well_formed _ _ _ _ Hr2 Hwf1) as Hwf2.
      pose proof (reach_frame _ _ _ _ Hr2) as [Hc2 _].
      destruct (IH st2 (j + 1) hi) as (st3 & -> & Hr3 & Hs3);
        try assumption; try lia.
      exists st3. split; [reflexivity|]. split.
      * apply reach_trans with st1; [exact Hr1|].
        apply reach_trans with st2;
          [apply (reach_mono lo j); auto; lia
          |apply (reach_mono (j + 1) hi); auto; lia].
      * intros Hn. destruct (Hnum1 Hn) as [Hp Hn1].
        assert (Hn2 : numbers_on (_score st2) lo hi).
        { refine (reach_all lo hi number st1 st2 _ Hn1).
          apply (reach_mono lo j); auto; lia. }
        assert (Hn3 : numbers_on (_score st3) lo hi).
        { refine (reach_all lo hi number st2 st3 _ Hn2).
          apply (reach_mono (j + 1) hi); auto; lia. }
        apply Hjoin.
        -- intros a b x y Ha Hab Hb.
           rewrite !(reach_outside _ _ _ _ _ Hr3) by lia.
           apply Hs2; auto. apply (numbers_on_sub _ lo hi); auto; lia.
        -- apply Hs3. apply (numbers_on_sub _ lo hi); auto; lia.
        -- apply numbers_le_on;
             [exact Hp|apply (numbers_on_sub _ lo hi); auto; lia|].
           intros k x Hk. rewrite (reach_outside _ _ _ _ _ Hr3) by lia.
           intros Hx.
           refine (reach_all lo j (fun x => (p <? x)%float = false) _ _
                             Hr2 Hlow k x _ Hx).
           lia.
        -- apply numbers_ge_on;
             [exact Hp|apply (numbers_on_sub _ lo hi); auto; lia|].
           refine (reach_all (j + 1) hi (fun x => (x <? p)%float = false)
                             _ _ Hr3 _).
           intros k x Hk. rewrite (reach_outside _ _ _ _ _ Hr2) by lia.
           intros Hx. refine (Hhigh k x _ Hx). lia.
    + destruct (IH st1 (j + 1) hi) as (st2 & -> & Hr2 & Hs2);
        try assumption; try lia.
      simpl. pose proof (reach_well_formed _ _ _ _ Hr2 Hwf1) as Hwf2.
      pose proof (reach_frame _ _ _ _ Hr2) as [Hc2 _].
      destruct (IH st2 lo j) as (st3 & -> & Hr3 & Hs3);
        try assumption; try lia.
      exists st3. split; [reflexivity|]. split.
      * apply reach_trans with st1; [exact Hr1|].
        apply reach_trans with st2;
          [apply (reach_mono (j + 1) hi); auto; lia
          |apply (reach_mono lo j); auto; lia].
      * intros Hn. destruct (Hnum1 Hn) as [Hp Hn1].
        assert (Hn2 : numbers_on (_score st2) lo hi).
        { refine (reach_all lo hi number st1 st2 _ Hn1).
          apply (reach_mono (j + 1) hi); auto; lia. }
        assert (Hn3 : numbers_on (_score st3) lo hi).
        { refine (reach_all lo hi number st2 st3 _ Hn2).
          apply (reach_mono lo j); auto; lia. }
        apply Hjoin.
        -- apply Hs3. apply (numbers_on_sub _ lo hi); auto; lia.
        -- intros a b x y Ha Hab Hb.
           rewrite !(reach_outside _ _ _ _ _ Hr3) by lia.
           apply Hs2; auto. apply (numbers_on_sub _ lo hi); auto; lia.
        -- apply numbers_le_on;
             [exact Hp|apply (numbers_on_sub _ lo hi); auto; lia|].
           refine (reach_all lo j (fun x => (p <? x)%float = false) _ _
                             Hr3 _).
           intros k x Hk. rewrite (reach_outside _ _ _ _ _ Hr2) by lia.
           intros Hx. refine (Hlow k x _ Hx). lia.
        -- apply numbers_ge_on;
             [exact Hp|apply (numbers_on_sub _ lo hi); auto; lia|].
           intros k x Hk. rewrite (reach_outside _ _ _ _ _ Hr3) by lia.
           intros Hx.
           refine (reach_all (j + 1) hi (fun x => (x <? p)%float = false)
                             _ _ Hr2 Hhigh k x _ Hx).
           lia.
  - exists st. split; [reflexivity|]. split; [apply reach_refl|].
    intros Hn a b x y Ha Hab Hb Hx Hy. assert (a = b) by lia. subst b.
    rewrite Hx in Hy. injection Hy as <-. apply leb_refl.
    apply (Hn a x); [lia|exact Hx].
Qed.

(** C9: the recursive partition-exchange sort terminates on every
    well-formed store, whatever its scores (NaN included), and every
    in-bounds range [lo <= hi]: a recursion budget above [hi - lo] is
    never exhausted and no access leaves the arrays; and on a range of at
    least two cells [partition] returns a cut [j] with [lo <= j < hi], so
    that [lo..j] and [j+1..hi] are both strictly shorter than [lo..hi]. *)
Theorem qsort_terminates st lo hi :
  well_formed st -> 0 <= lo -> lo <= hi -> hi < _count st ->
  (forall fuel, Z.of_nat fuel > hi - lo ->
     exists st', qsort fuel st lo hi = Ok st') /\
  (lo < hi ->
     exists st1 j, partition st lo hi = Ok (st1, j) /\ lo <= j < hi /\
                   j - lo < hi - lo /\ hi - (j + 1) < hi - lo).
Proof.
  intros Hwf Hlo Hle Hhi. split.
  - intros fuel Hfuel.
    destruct (qsort_spec fuel st lo hi Hwf Hlo Hle Hhi Hfuel) as (st' & H & _).
    exists st'. exact H.
  - intros Hlt.
    destruct (partition_spec st lo hi Hwf Hlo Hlt Hhi)
      as (st1 & j & p & _ & H & _ & Hj & _).
    exists st1, j. repeat split; try assumption; lia.
Qed.

(** ** The evaluation pass *)


Lemma map_fst_combine {A B} (l : list A) (r : list B) :
  length l = length r -> map fst (combine l r) = l.
Proof.
  revert r. induction l as [|x t IH]; intros [|y r] H; simpl in *;
    try discriminate; [reflexivity|]. f_equal. apply IH. lia.
Qed.

Lemma Forall_combine_map {A B} (f : A -> B) (l : list A) :
  Forall (fun ab => snd ab = f (fst ab)) (combine l (map f l)).
Proof.
  induction l as [|x t IH]; simpl; constructor; auto.
Qed.

Lemma lookup_In {A} (l : list A) i x : lookup l i = Some x -> In x l.
Proof.
  unfold lookup. destruct (i <? 0); [discriminate|]. apply nth_error_In.
Qed.

Section Pass.
Context {C : Type}.
Variable env : Environment C.

(** The pass returns on any engine that holds a candidate: the slots are
    permuted, pairs kept together, and the scores are left sorted when
    they are numbers. *)
Lemma evaluate_spec (w : world C) :
  well_formed (engine w) -> 0 < _count (engine w) ->
  exists m st',
    evaluate env w = ([EvEvaluate m], Ok (m, with_engine w st')) /\
    well_formed st' /\
    _reverse st' = _reverse (engine w) /\
    Permutation (combine (_pool (engine w)) (scores_of env w)) (pairs st') /\
    (Forall number (scores_of env w) ->
     sorted_on (_score st') 0 (_count st' - 1)) /\
    lookup (_score st') 0 = Some m.
Proof.
  intros Hwf Hpos. pose proof Hwf as (Hc & Hpool & Hscore & Hrev).
  set (scored := with_score (engine w) (scores_of env w)).
  assert (Hwfs : well_formed scored).
  { unfold well_formed, scored, scores_of. simpl. rewrite length_map. auto. }
  destruct (qsort_spec (S (length (_pool (engine w)))) scored 0
              (_count (engine w) - 1))
    as (st' & Hrun & Hreach & Hsorted);
    try assumption; try (simpl; lia).
  pose proof (reach_well_formed _ _ _ _ Hreach Hwfs) as Hwf'.
  pose proof (reach_frame _ _ _ _ Hreach) as [Hc' Hr'].
  simpl in Hc', Hr'.
  destruct (lookup_in_range (_score st') 0) as [m Hm].
  { destruct Hwf' as (_ & _ & Hs' & _). lia. }
  exists m, st'. unfold evaluate. fold scored.
  rewrite (wrap_small (_count (engine w) - 1)) by lia.
  rewrite Hrun. cbn [rbind]. unfold rd. rewrite Hm. cbn [rbind].
  split; [reflexivity|]. split; [exact Hwf'|]. split; [exact Hr'|].
  split; [apply (reach_pairs _ _ _ _ Hreach)|]. split; [|reflexivity].
  intros Hnum. rewrite Hc'. apply Hsorted.
  intros k x _ Hx. rewrite Forall_forall in Hnum.
  apply Hnum. exact (lookup_In _ _ _ Hx).
Qed.

(** On an engine without candidates the pass reads [_score[0]] of an
    empty array. *)
Lemma evaluate_empty (w : world C) :
  well_formed (engine w) -> _count (engine w) = 0 ->
  evaluate env w = ([], Fault OutOfBounds).
Proof.
  intros (Hc & Hpool & Hscore & Hrev) H0. unfold evaluate, scores_of.
  rewrite H0 in *. destruct (_pool (engine w)); [|simpl in Hpool; lia].
  reflexivity.
Qed.

(** After the pass every slot pairs a handle with the score of the
    candidate it designates. *)
Lemma pass_pairing (w : world C) st' :
  Permutation (combine (_pool (engine w)) (scores_of env w)) (pairs st') ->
  forall i p s, lookup (_pool st') i = Some p ->
                lookup (_score st') i = Some s ->
                s = evaluate_candidate env (store_of w p).
Proof.
  intros Hperm i p s Hp Hs.
  pose proof (Forall_combine_map
                (fun p => evaluate_candidate env (store_of w p))
                (_pool (engine w))) as Hall.
  fold (scores_of env w) in Hall.
  apply (Permutation_Forall Hperm) in Hall.
  rewrite Forall_forall in Hall.
  apply (Hall (p, s)). unfold pairs, lookup in *.
  destruct (i <? 0); [discriminate|].
  apply (nth_error_In _ (Z.to_nat i)).
  revert Hp Hs. generalize (Z.to_nat i) as n.
  generalize (_score st') as r. generalize (_pool st') as l.
  induction l as [|a t IH]; intros [|b r] [|n]; simpl; try discriminate.
  - congruence.
  - apply IH.
Qed.

(** The pass keeps the handles, permuted. *)
Lemma pass_pool (w : world C) st' :
  well_formed st' ->
  Permutation (combine (_pool (engine w)) (scores_of env w)) (pairs st') ->
  Permutation (_pool (engine w)) (_pool st').
Proof.
  intros Hwf' Hperm.
  apply (Permutation_map fst) in Hperm. unfold pairs in Hperm.
  rewrite !map_fst_combine in Hperm; [exact Hperm| |].
  - destruct Hwf' as (_ & Hp' & Hs' & _). lia.
  - unfold scores_of. rewrite length_map. reflexivity.
Qed.


Lemma sorted_on_ascending s n :
  Z.of_nat (length s) = n -> sorted_on s 0 (n - 1) -> ascending s.
Proof.
  intros Hlen Hsorted i x y Hx Hy.
  pose proof (lookup_Some_range _ _ _ Hx).
  pose proof (lookup_Some_range _ _ _ Hy).
  apply (Hsorted i (i + 1)); auto; lia.
Qed.

End Pass.

(** ** The reverse score board *)

Lemma skipn_lookup {A} (l : list A) i x :
  lookup l i = Some x ->
  skipn (Z.to_nat i) l = x :: skipn (Z.to_nat (i + 1)) l.
Proof.
  intros H. pose proof (lookup_Some_range _ _ _ H) as Hr.
  unfold lookup in H. destruct (Z.ltb_spec i 0); [lia|].
  replace (Z.to_nat (i + 1)) with (S (Z.to_nat i)) by lia.
  revert H. generalize (Z.to_nat i) as n. clear.
  induction l as [|a t IH]; intros [|n] H; simpl in *; try discriminate.
  - congruence.
  - apply IH, H.
Qed.

Lemma reverse_loop_length ec score :
  forall n i reverse total reverse' total',
    reverse_loop n i ec score reverse total = Ok (reverse', total') ->
    length reverse' = length reverse.
Proof.
  induction n as [|n IH]; intros i reverse total reverse' total' H; simpl in H.
  - injection H as <- _. reflexivity.
  - destruct (rd score i) as [s|]; [|discriminate]. cbn [rbind] in H.
    destruct (wr reverse (reverse_index ec i) (Some s)) as [r1|] eqn:E;
      [|discriminate].
    cbn [rbind] in H. apply wr_Ok in E. destruct E as [_ ->].
    rewrite (IH _ _ _ _ _ H). apply length_upd.
Qed.

Lemma reverse_loop_spec ec score :
  ec < UINT_MOD -> ec <= Z.of_nat (length score) ->
  forall n i reverse total,
    0 <= i -> i + Z.of_nat n = ec -> ec < Z.of_nat (length reverse) ->
    exists reverse',
      reverse_loop n i ec score reverse total =
        Ok (reverse',
            fold_left add (firstn n (skipn (Z.to_nat i) score)) total) /\
      (forall k, i <= k < ec ->
                 lookup reverse' (ec - k) = Some (lookup score k)) /\
      (forall c, c <= 0 \/ ec - i < c ->
                 lookup reverse' c = lookup reverse c).
Proof.
  intros Hmax Hscore. induction n as [|n IH];
    intros i reverse total Hi Hn Hrev.
  - exists reverse. simpl. split; [reflexivity|]. split; [|reflexivity].
    intros k Hk. lia.
  - destruct (lookup_in_range score i) as [s Hs]; [lia|].
    cbn [reverse_loop]. unfold rd, wr, reverse_index. rewrite Hs.
    cbn [rbind]. rewrite (wrap_small (ec - i)) by lia.
    destruct (lookup_in_range reverse (ec - i)) as [old Hold]; [lia|].
    rewrite Hold. cbn [rbind]. rewrite (wrap_small (i + 1)) by lia.
    destruct (IH (i + 1) (upd reverse (ec - i) (Some s)) (total + s)%float)
      as (reverse' & Hrun & Hcells & Hrest);
      [lia|lia|rewrite length_upd; lia|].
    exists reverse'. split; [|split].
    + rewrite Hrun, (skipn_lookup _ _ _ Hs). reflexivity.
    + intros k Hk. destruct (Z.eq_dec k i) as [->|Hne].
      * rewrite Hrest by lia. rewrite Hs. apply lookup_upd_same. lia.
      * apply Hcells. lia.
    + intros c Hc. rewrite Hrest by lia. apply lookup_upd_other. lia.
Qed.

Lemma build_reverse_spec st eliteCount :
  well_formed st -> 0 <= eliteCount < _count st ->
  exists reverse,
    build_reverse st eliteCount =
      Ok (with_reverse st reverse,
          fold_left add (firstn (Z.to_nat eliteCount) (_score st)) 0%float) /\
    (forall i, 0 <= i < eliteCount ->
       lookup reverse (eliteCount - i) = Some (lookup (_score st) i)) /\
    (forall c, c <= 0 \/ eliteCount < c ->
       lookup reverse c = lookup (_reverse st) c) /\
    (_reverse st = repeat None (Z.to_nat (_count st)) ->
       lookup reverse 0 = Some None).
Proof.
  intros (Hc & Hpool & Hscore & Hrev) Hec.
  destruct (reverse_loop_spec eliteCount (_score st) ltac:(lia) ltac:(lia)
              (Z.to_nat eliteCount) 0 (_reverse st) 0%float)
    as (reverse & Hrun & Hcells & Hrest); try lia.
  exists reverse. unfold build_reverse. rewrite Hrun. cbn [rbind].
  split; [reflexivity|]. split; [exact Hcells|]. split.
  - intros c Hcell. apply Hrest. lia.
  - intros Hnew. rewrite Hrest by lia. rewrite Hnew.
    unfold lookup. simpl. destruct (Z.to_nat (_count st)) eqn:E; [lia|].
    reflexivity.
Qed.

(** C3: when [eliteCount < _count], the construction returns; the total is
    the left-to-right sum of [_score[0..eliteCount)], the score of rank [i]
    lands in cell [eliteCount - i] of [_reverse] (so cells [1..eliteCount]
    are written), and every other cell, cell 0 among them, keeps what it
    held: on the buffer as the constructor allocated it, cell 0 is still
    unwritten. *)
Theorem reverse_board_from_elite st eliteCount :
  well_formed st -> 0 <= eliteCount < _count st ->
  exists reverse,
    build_reverse st eliteCount =
      Ok (with_reverse st reverse,
          fold_left add (firstn (Z.to_nat eliteCount) (_score st)) 0%float) /\
    (forall i, 0 <= i < eliteCount ->
       lookup reverse (eliteCount - i) = Some (lookup (_score st) i)) /\
    (forall c, c <= 0 \/ eliteCount < c ->
       lookup reverse c = lookup (_reverse st) c) /\
    (_reverse st = repeat None (Z.to_nat (_count st)) ->
       lookup reverse 0 = Some None).
Proof.
  intros Hwf Hec. exact (build_reverse_spec st eliteCount Hwf Hec).
Qed.

Lemma build_reverse_out_of_bounds st eliteCount :
  well_formed st -> 0 < _count st -> _count st <= eliteCount < UINT_MOD ->
  build_reverse st eliteCount = Fault OutOfBounds.
Proof.
  intros (Hc & Hpool & Hscore & Hrev) Hpos Hge. unfold build_reverse.
  destruct (Z.to_nat eliteCount) as [|n] eqn:E; [lia|].
  cbn [reverse_loop].
  destruct (lookup_in_range (_score st) 0) as [s Hs]; [lia|].
  unfold rd, wr, reverse_index. rewrite Hs. cbn [rbind].
  rewrite Z.sub_0_r, (wrap_small eliteCount) by lia.
  rewrite lookup_None by lia. reflexivity.
Qed.

(** C10: on a well-formed engine with at least one candidate, iteration
    [i] of the construction writes cell [eliteCount - i]: when
    [eliteCount < _count] the construction returns a buffer in which
    exactly the cells [1..eliteCount] were written, cell [c] with the score
    of rank [eliteCount - c], every other cell being as it was; all the
    cells written lie inside the [_count] cells of [_reverse] if and only
    if [eliteCount < _count], the construction returns if and only if
    [eliteCount < _count], and from [eliteCount = _count] on the first
    write, at cell [eliteCount], is outside the buffer. *)
Theorem reverse_board_bounds st eliteCount :
  well_formed st -> 0 < _count st -> 0 <= eliteCount < UINT_MOD ->
  (forall i, 0 <= i < eliteCount ->
     reverse_index eliteCount i = eliteCount - i) /\
  (forall c, 1 <= c <= eliteCount <->
     exists i, 0 <= i < eliteCount /\ reverse_index eliteCount i = c) /\
  (eliteCount < _count st ->
     exists reverse total,
       build_reverse st eliteCount = Ok (with_reverse st reverse, total) /\
       (forall c, 1 <= c <= eliteCount ->
          exists s, lookup (_score st) (eliteCount - c) = Some s /\
                    lookup reverse c = Some (Some s)) /\
       (forall c, c <= 0 \/ eliteCount < c ->
          lookup reverse c = lookup (_reverse st) c)) /\
  ((forall i, 0 <= i < eliteCount ->
      reverse_index eliteCount i < _count st) <-> eliteCount < _count st) /\
  ((exists r, build_reverse st eliteCount = Ok r) <->
     eliteCount < _count st) /\
  (_count st <= eliteCount ->
     reverse_index eliteCount 0 = eliteCount /\
     (forall x, wr (_reverse st) (reverse_index eliteCount 0) x =
                Fault OutOfBounds) /\
     build_reverse st eliteCount = Fault OutOfBounds).
Proof.
  intros Hwf Hpos Hec. pose proof Hwf as (Hc & Hpool & Hscore & Hrev).
  assert (Hidx : forall i, 0 <= i < eliteCount ->
                   reverse_index eliteCount i = eliteCount - i).
  { intros i Hi. apply wrap_small. lia. }
  assert (Hout : _count st <= eliteCount ->
                 build_reverse st eliteCount = Fault OutOfBounds).
  { intros Hge. apply build_reverse_out_of_bounds; auto; lia. }
  split; [exact Hidx|]. split; [|split; [|split; [|split]]].
  - intros c. split.
    + intros Hcell. exists (eliteCount - c). split; [lia|].
      rewrite Hidx; lia.
    + intros (i & Hi & <-). rewrite Hidx; lia.
  - intros Hlt.
    destruct (build_reverse_spec st eliteCount Hwf ltac:(lia))
      as (reverse & Hrun & Hcells & Hrest & _).
    exists reverse. eexists. split; [exact Hrun|]. split; [|exact Hrest].
    intros c Hcell.
    destruct (lookup_in_range (_score st) (eliteCount - c)) as [s Hs];
      [lia|].
    exists s. split; [exact Hs|].
    rewrite <- Hs. replace c with (eliteCount - (eliteCount - c)) at 1 by lia.
    apply Hcells. lia.
  - split.
    + intros Hall. destruct (Z.eq_dec eliteCount 0); [lia|].
      specialize (Hall 0 ltac:(lia)). rewrite Hidx in Hall; lia.
    + intros Hlt i Hi. rewrite Hidx; lia.
  - split.
    + intros [r Hr]. destruct (Z_lt_le_dec eliteCount (_count st)); [auto|].
      rewrite Hout in Hr by assumption. discriminate.
    + intros Hlt.
      destruct (build_reverse_spec st eliteCount Hwf ltac:(lia))
        as (r & Hr & _).
      eexists. exact Hr.
  - intros Hge. rewrite Hidx by lia. split; [lia|]. split; [|auto].
    intros x. unfold wr. rewrite Z.sub_0_r, lookup_None by lia. reflexivity.
Qed.

(** ** The strategy cascade *)

Lemma first_exceeding_ext l u v k :
  (forall j, u j = v j) -> first_exceeding l u k = first_exceeding l v k.
Proof.
  intros H. revert k. induction l as [|t r IH]; intros k; simpl;
    [reflexivity|]. rewrite H, IH. reflexivity.
Qed.

Lemma first_exceeding_shift l u k :
  first_exceeding l u (S k) =
    option_map S (first_exceeding l (fun j => u (S j)) k).
Proof.
  revert k. induction l as [|t r IH]; intros k; simpl; [reflexivity|].
  destruct (u (S k) <? t)%float; [reflexivity|apply IH].
Qed.

Lemma cascade_choice_ext l u v :
  (forall j, u j = v j) -> cascade_choice l u = cascade_choice l v.
Proof.
  intros H. unfold cascade_choice.
  rewrite (first_exceeding_ext l u v 0 H). reflexivity.
Qed.

Lemma cascade_choice_hit t l u :
  (u O <? t)%float = true -> cascade_choice (t :: l) u = O.
Proof. intros H. unfold cascade_choice. simpl. rewrite H. reflexivity. Qed.

Lemma cascade_choice_skip t t' l u :
  (u O <? t)%float = false ->
  cascade_choice (t :: t' :: l) u =
    S (cascade_choice (t' :: l) (fun j => u (S j))).
Proof.
  intros H. unfold cascade_choice.
  change (first_exceeding (t :: t' :: l) u 0)
    with (if (u O <? t)%float then Some O
          else first_exceeding (t' :: l) u 1).
  rewrite H, first_exceeding_shift.
  destruct (first_exceeding (t' :: l) (fun j => u (S j)) 0);
    cbn [option_map length]; [reflexivity|lia].
Qed.

Lemma cascade_choice_last t u : cascade_choice [t] u = O.
Proof.
  unfold cascade_choice. simpl. destruct (u O <? t)%float; reflexivity.
Qed.

Lemma slots_step i n : slots i (S n) = i :: slots (i + 1) n.
Proof.
  unfold slots. simpl. rewrite Z.add_0_r. f_equal.
  rewrite <- seq_shift, map_map. apply map_ext. intros k. lia.
Qed.

Section Cascade.
Context {C : Type}.
Variable dist : nat -> double.
Variables (total : double) (count : Z).

(** What one call of the private [mutate] does to a slot that exists. *)
Lemma mutate_spec pos :
  forall others mutator k (w : world C) offspring,
    lookup (_pool (engine w)) pos = Some offspring ->
    let sel := cascade_choice (map threshold (mutator :: others))
                              (fun j => dist (tick w + j)%nat) in
    exists m w',
      nth_error (mutator :: others) sel = Some m /\
      mutate dist total pos count k mutator others w =
        ([EvMutate pos (k + sel)%nat], Ok (tt, w')) /\
      engine w' = engine w /\
      store_of w' =
        poke (store_of w) offspring
             (mutate_offspring m (calls w) (store_of w) (_pool (engine w))
                               (_reverse (engine w)) total count offspring) /\
      tick w' = (tick w + Nat.min (S sel) (length others))%nat /\
      calls w' = S (calls w).
Proof.
  induction others as [|next rest IH]; intros mutator k w offspring Hp sel.
  - subst sel. cbn [map]. rewrite cascade_choice_last.
    exists mutator. eexists. split; [reflexivity|].
    cbn [mutate]. unfold apply_mutator, rd. rewrite Hp.
    rewrite Nat.add_0_r. split; [reflexivity|]. simpl.
    repeat split; lia.
  - cbn [mutate]. unfold bind, draw.
    destruct (dist (tick w) <? threshold mutator)%float eqn:E.
    + subst sel. cbn [map]. rewrite cascade_choice_hit
        by (rewrite Nat.add_0_r; exact E).
      exists mutator. eexists. split; [reflexivity|].
      unfold apply_mutator, rd. cbn [engine store_of tick calls].
      rewrite Hp, Nat.add_0_r. split; [reflexivity|]. simpl.
      repeat split; lia.
    + set (w1 := mkWorld (engine w) (store_of w) (S (tick w)) (calls w)).
      destruct (IH next (S k) w1 offspring Hp)
        as (m & w' & Hm & Hrun & He & Hs & Ht & Hc).
      subst sel. cbn [map] in *.
      rewrite cascade_choice_skip by (rewrite Nat.add_0_r; exact E).
      rewrite (cascade_choice_ext _ (fun j => dist (tick w + S j)%nat)
                 (fun j => dist (tick w1 + j)%nat))
        by (intros j; simpl; f_equal; lia).
      exists m, w'. split; [exact Hm|].
      rewrite Hrun. rewrite Nat.add_succ_r. split; [reflexivity|].
      simpl in *. repeat split; auto; lia.
Qed.

Lemma mutate_missing pos :
  forall others mutator k (w : world C),
    lookup (_pool (engine w)) pos = None ->
    mutate dist total pos count k mutator others w = ([], Fault OutOfBounds).
Proof.
  induction others as [|next rest IH]; intros mutator k w Hp.
  - cbn [mutate]. unfold apply_mutator, rd. rewrite Hp. reflexivity.
  - cbn [mutate]. unfold bind, draw.
    destruct (dist (tick w) <? threshold mutator)%float.
    + unfold apply_mutator, rd. cbn [engine]. rewrite Hp. reflexivity.
    + rewrite IH by exact Hp. reflexivity.
Qed.
End Cascade.

(** ** Logs *)

Lemma minima_app l1 l2 : minima (l1 ++ l2) = minima l1 ++ minima l2.
Proof. apply flat_map_app. Qed.

Lemma mutations_app l1 l2 :
  mutations (l1 ++ l2) = mutations l1 ++ mutations l2.
Proof. apply flat_map_app. Qed.




Section Run.
Context {C : Type}.
Variable dist : nat -> double.
Variable env : Environment C.

(** The log of a sequence is the log of its first part followed by the
    log of what runs after it. *)
Lemma fst_bind {A B} (m : M C A) (k : A -> M C B) (w : world C) :
  fst (bind m k w) =
    fst (m w) ++ match snd (m w) with
                 | Ok (a, w1) => fst (k a w1)
                 | Fault _ => []
                 end.
Proof.
  unfold bind. destruct (m w) as [e1 [[a w1]|f]]; simpl.
  - destruct (k a w1). reflexivity.
  - rewrite app_nil_r. reflexivity.
Qed.

Lemma snd_bind {A B} (m : M C A) (k : A -> M C B) (w : world C) :
  snd (bind m k w) =
    match snd (m w) with
    | Ok (a, w1) => snd (k a w1)
    | Fault f => Fault f
    end.
Proof.
  unfold bind. destruct (m w) as [e1 [[a w1]|f]]; simpl; [|reflexivity].
  destruct (k a w1). reflexivity.
Qed.

(** *** Recycling the slots after the elite *)

Lemma mutate_written total eliteCount mutator others pos (w : world C)
      offspring :
  lookup (_pool (engine w)) pos = Some offspring ->
  exists w',
    mutate dist total pos eliteCount 0 mutator others w =
      ([EvMutate pos
          (cascade_choice (map threshold (mutator :: others))
                          (fun j => dist (tick w + j)%nat))],
       Ok (tt, w')) /\
    offspring_written dist total eliteCount mutator others pos w
      (EvMutate pos
         (cascade_choice (map threshold (mutator :: others))
                         (fun j => dist (tick w + j)%nat)))
      w'.
Proof.
  intros Hp.
  destruct (mutate_spec dist total eliteCount pos others mutator O w
                        offspring Hp)
    as (m & w' & Hm & Hrun & He & Hs & Ht & Hc).
  exists w'. split; [exact Hrun|].
  exists offspring, m. repeat (split; [assumption || reflexivity|]).
  exact Hc.
Qed.

Lemma recycle_spec total eliteCount mutator others :
  forall n i (w : world C),
    well_formed (engine w) -> 0 <= i ->
    i + Z.of_nat n <= _count (engine w) ->
    exists evs w',
      recycle dist n i total eliteCount mutator others w =
        (evs, Ok (tt, w')) /\
      engine w' = engine w /\
      Forall2
        (fun pos ev =>
           exists t,
             ev = EvMutate pos
                    (cascade_choice (map threshold (mutator :: others))
                                    (fun j => dist (t + j)%nat)))
        (slots i n) evs /\
      (forall h,
         (forall pos, i <= pos -> lookup (_pool (engine w)) pos <> Some h) ->
         store_of w' h = store_of w h) /\
      offspring_chain dist total eliteCount mutator others i w evs w' /\
      calls w' = (calls w + n)%nat.
Proof.
  induction n as [|n IH]; intros i w Hwf Hi Hn.
  - exists [], w. split; [reflexivity|]. split; [reflexivity|].
    split; [constructor|]. split; [reflexivity|].
    split; [constructor|lia].
  - pose proof Hwf as (Hc & Hpool & _).
    destruct (lookup_in_range (_pool (engine w)) i) as [p Hp]; [lia|].
    destruct (mutate_written total eliteCount mutator others i w p Hp)
      as (w1 & Hrun & Hw).
    pose proof Hw as (p' & m & Hp' & _ & _ & He & Hs & _ & Hcalls).
    assert (p' = p) by congruence. subst p'.
    cbn [recycle]. unfold bind. rewrite Hrun.
    rewrite (wrap_small (i + 1)) by lia.
    destruct (IH (i + 1) w1)
      as (evs & w' & Hrun' & He' & Hall & Hframe & Hchain & Hcalls');
      [rewrite He; exact Hwf|lia|rewrite He; lia|].
    rewrite Hrun'. eexists. exists w'. split; [reflexivity|].
    split; [congruence|]. split; [|split; [|split]].
    + rewrite slots_step. constructor; [|exact Hall].
      exists (tick w). reflexivity.
    + intros h Hh. rewrite Hframe.
      * rewrite Hs. unfold poke. destruct (Nat.eqb_spec h p) as [->|_];
          [|reflexivity]. exfalso. apply (Hh i); [lia|exact Hp].
      * intros pos Hpos. rewrite He. apply Hh. lia.
    + simpl. econstructor; [exact Hw|exact Hchain].
    + lia.
Qed.

(** C4: a slot that exists receives one call of [mutate], made by the
    strategy that is first, in the caller's order, to have a threshold
    above its draw, and by the last strategy when there is none (the
    draws being the successive values of the engine's distribution from
    the moment the cascade starts): the call logs that one strategy,
    replaces the candidate of the slot by that strategy's offspring,
    touches no other candidate, leaves the engine as it was, consumes one
    draw per strategy tried and counts as one mutator call.  A generation
    makes exactly one such call for each slot of [eliteCount, _count), in
    slot order, each seeing what the calls before it wrote. *)
Theorem cascade_one_offspring_per_slot total eliteCount mutator others
        (w : world C) :
  well_formed (engine w) -> 0 <= eliteCount ->
  let thresholds := map threshold (mutator :: others) in
  let n := Z.to_nat (_count (engine w) - eliteCount) in
  (forall pos offspring,
     lookup (_pool (engine w)) pos = Some offspring ->
     exists w',
       mutate dist total pos eliteCount 0 mutator others w =
         ([EvMutate pos
             (cascade_choice thresholds (fun j => dist (tick w + j)%nat))],
          Ok (tt, w')) /\
       offspring_written dist total eliteCount mutator others pos w
         (EvMutate pos
            (cascade_choice thresholds (fun j => dist (tick w + j)%nat)))
         w') /\
  (exists evs w',
     recycle dist n eliteCount total eliteCount mutator others w =
       (evs, Ok (tt, w')) /\
     offspring_chain dist total eliteCount mutator others eliteCount w
                     evs w' /\
     Forall2
       (fun pos ev =>
          exists t,
            ev = EvMutate pos
                   (cascade_choice thresholds (fun j => dist (t + j)%nat)))
       (slots eliteCount n) evs /\
     map fst (mutations evs) = slots eliteCount n /\
     length evs = n /\
     engine w' = engine w /\
     calls w' = (calls w + n)%nat).
Proof.
  intros Hwf Hec thresholds n. split.
  - intros pos offspring Hp.
    exact (mutate_written total eliteCount mutator others pos w offspring Hp).
  - assert (Hrun : exists evs w',
               recycle dist n eliteCount total eliteCount mutator others w =
                 (evs, Ok (tt, w')) /\
               offspring_chain dist total eliteCount mutator others
                               eliteCount w evs w' /\
               Forall2
                 (fun pos ev =>
                    exists t,
                      ev = EvMutate pos
                             (cascade_choice thresholds
                                             (fun j => dist (t + j)%nat)))
                 (slots eliteCount n) evs /\
               engine w' = engine w /\
               calls w' = (calls w + n)%nat).
    { destruct (Z_le_gt_dec eliteCount (_count (engine w))) as [Hle|Hgt].
      - destruct (recycle_spec total eliteCount mutator others n
                               eliteCount w Hwf Hec)
          as (evs & w' & Hrun & He & Hall & _ & Hchain & Hcalls);
          [subst n; lia|].
        exists evs, w'. repeat (split; [assumption|]). exact Hcalls.
      - replace n with O by (subst n; lia). exists [], w.
        split; [reflexivity|]. split; [constructor|].
        split; [constructor|]. split; [reflexivity|lia]. }
    destruct Hrun as (evs & w' & Hrun & Hchain & Hall & He & Hcalls).
    exists evs, w'. split; [exact Hrun|]. split; [exact Hchain|].
    split; [exact Hall|]. split; [|split; [|split; assumption]].
    + clear Hrun Hchain. induction Hall as [|pos ev l evs [t ->] _ IH];
        [reflexivity|]. simpl. rewrite IH. reflexivity.
    + apply Forall2_length in Hall. rewrite <- Hall. unfold slots.
      rewrite length_map, length_seq. reflexivity.
Qed.

(** *** One generation *)

Lemma build_reverse_inv st eliteCount st' total :
  build_reverse st eliteCount = Ok (st', total) ->
  exists reverse, st' = with_reverse st reverse /\
                  length reverse = length (_reverse st).
Proof.
  unfold build_reverse. intros H.
  destruct (reverse_loop _ _ _ _ _ _) as [[reverse t]|] eqn:E;
    [|discriminate].
  cbn [rbind] in H. injection H as <- _. exists reverse.
  split; [reflexivity|]. apply (reverse_loop_length _ _ _ _ _ _ _ _ E).
Qed.

(** The body of the loop emits no evaluation, keeps the pool and leaves
    alone every candidate that no slot of [eliteCount, _count)
    designates. *)
Lemma generation_body_spec visitor eliteCount mutator others (w : world C) :
  sound w -> 0 < _count (engine w) -> 0 <= eliteCount < UINT_MOD ->
  forall evs r,
    generation_body dist visitor eliteCount mutator others w = (evs, r) ->
    minima evs = [] /\
    forall u w', r = Ok (u, w') ->
      sound w' /\ _pool (engine w') = _pool (engine w) /\
      forall h,
        (forall pos, eliteCount <= pos ->
                     lookup (_pool (engine w)) pos <> Some h) ->
        store_of w' h = store_of w h.
Proof.
  intros [Hwf Hnd] Hpos Hec evs r. unfold generation_body.
  unfold bind at 1. unfold get_engine at 1. unfold bind at 1.
  unfold lift at 1.
  destruct (build_reverse (engine w) eliteCount) as [[st1 total]|f] eqn:Hb.
  - destruct (build_reverse_inv _ _ _ _ Hb) as (reverse & -> & Hlen).
    assert (Hlt : eliteCount < _count (engine w)).
    { destruct (Z_lt_le_dec eliteCount (_count (engine w))); [assumption|].
      rewrite build_reverse_out_of_bounds in Hb by (auto; lia).
      discriminate. }
    unfold bind at 1. unfold put_engine at 1.
    set (w1 := with_engine w (fst (with_reverse (engine w) reverse, total))).
    assert (Hwf1 : well_formed (engine w1)).
    { unfold well_formed in *. simpl. rewrite Hlen. exact Hwf. }
    destruct (recycle_spec total eliteCount mutator others
                (Z.to_nat (_count (engine w) - eliteCount)) eliteCount w1
                Hwf1 ltac:(lia) ltac:(simpl; lia))
      as (evr & w' & Hrun & He & Hall & Hframe & _).
    assert (Hquiet : minima evr = []).
    { clear - Hall. induction Hall as [|pos ev l evs [t ->] _ IH];
        [reflexivity|exact IH]. }
    unfold bind, emit, ret. cbn [snd].
    destruct visitor; cbn beta iota; rewrite Hrun; cbn [app];
      intros [= <- <-]; (split; [exact Hquiet|]);
      intros u w2 [= _ <-]; unfold sound; rewrite He;
      (split; [split; [exact Hwf1|exact Hnd]|]);
      (split; [reflexivity|exact Hframe]).
  - intros [= <- <-]. split; [reflexivity|]. intros u w' [=].
Qed.

(** *** The generation loop *)

Lemma NoDup_lookup (l : list handle) i j h :
  NoDup l -> lookup l i = Some h -> lookup l j = Some h -> i = j.
Proof.
  intros Hnd Hi Hj. pose proof (lookup_Some_range _ _ _ Hi).
  pose proof (lookup_Some_range _ _ _ Hj). unfold lookup in *.
  destruct (Z.ltb_spec i 0); [lia|]. destruct (Z.ltb_spec j 0); [lia|].
  rewrite NoDup_nth_error in Hnd.
  assert (Z.to_nat i = Z.to_nat j) by (apply Hnd; [lia|congruence]).
  lia.
Qed.

Lemma scores_of_numbers (w : world C) :
  scores_numbers env -> Forall number (scores_of env w).
Proof.
  intros Hn. unfold scores_of. apply Forall_forall. intros x Hx.
  apply in_map_iff in Hx. destruct Hx as (h & <- & _). apply Hn.
Qed.


(** *** The whole run *)

Lemma to_unsigned_range x n : to_unsigned x = Ok n -> 0 <= n < UINT_MOD.
Proof.
  unfold to_unsigned. destruct (truncate x) as [t|]; [|discriminate].
  destruct (Z.leb_spec 0 t); destruct (Z.ltb_spec t UINT_MOD);
    simpl; intros [= <-]. lia.
Qed.

Lemma extract_quiet :
  forall n i (w : world C),
    minima (fst (extract env n i w)) = [] /\
    mutations (fst (extract env n i w)) = [].
Proof.
  induction n as [|n IH]; intros i w; [split; reflexivity|].
  cbn [extract]. unfold bind, get_engine, get_world, lift, emit, ret.
  destruct (rd (_pool (engine w)) i) as [p|f]; [|split; reflexivity].
  specialize (IH (wrap (i + 1)) w).
  destruct (extract env n (wrap (i + 1)) w) as [ex [[rest w']|f]];
    cbn [fst app] in *; rewrite ?app_nil_r; exact IH.
Qed.

Lemma train_unfold visitor maxGen minErr eliteSize size mutator others
      (w : world C) :
  train dist env visitor maxGen minErr eliteSize size mutator others w =
    let count := _count (engine w) in
    match to_unsigned (of_unsigned count * eliteSize) with
    | Fault f => ([], Fault f)
    | Ok eliteCount =>
        let w1 :=
          with_engine w (with_pool (engine w) (seq 0 (Z.to_nat count))) in
        match generations dist env visitor minErr eliteCount mutator others
                          (Z.to_nat maxGen) 0 None w1
        with
        | (eg, Fault f) => (EvReserve count :: eg, Fault f)
        | (eg, Ok (g, w2)) =>
            let number := if eliteCount <? size then eliteCount else size in
            match extract env (Z.to_nat number) 0 w2 with
            | (ex, Fault f) => (EvReserve count :: eg ++ ex, Fault f)
            | (ex, Ok (store, w3)) =>
                (EvReserve count :: eg ++ ex ++
                   [EvRelease (_count (engine w3))],
                 Ok (mkOutcome (to_int (fst g)) (snd g) (to_int number) store,
                     w3))
            end
        end
    end.
Proof.
  unfold train, bind, get_engine, lift, reserve, release, ret.
  cbn zeta.
  destruct (to_unsigned _) as [eliteCount|f]; [|reflexivity].
  destruct (generations _ _ _ _ _ _ _ _ _ _ _) as [eg [[g w2]|f]];
    [|reflexivity].
  destruct (extract _ _ _ _) as [ex [[store w3]|f]];
    cbn [app]; rewrite ?app_nil_r; reflexivity.
Qed.

Lemma reserved_sound (w : world C) :
  well_formed (engine w) ->
  sound (with_engine w (with_pool (engine w)
                          (seq 0 (Z.to_nat (_count (engine w)))))).
Proof.
  intros (Hc & Hpool & Hscore & Hrev). split.
  - unfold well_formed. simpl. rewrite length_seq.
    repeat split; try assumption; lia.
  - simpl. apply seq_NoDup.
Qed.

Lemma initial_well_formed pSize :
  0 <= pSize < UINT_MOD -> well_formed (engine (initial_world env pSize)).
Proof.
  intros H. unfold well_formed. simpl. rewrite !repeat_length.
  repeat split; lia.
Qed.

Lemma generations_start visitor minErr eliteCount mutator others
      remaining generation minimum (w : world C) :
  well_formed (engine w) -> 0 < _count (engine w) ->
  exists m rest,
    fst (generations dist env visitor minErr eliteCount mutator others
                     (S remaining) generation minimum w) =
      EvEvaluate m :: rest.
Proof.
  intros Hwf Hpos.
  destruct (evaluate_spec env w Hwf Hpos) as (m & st' & Hrun & _).
  cbn [generations]. rewrite fst_bind, Hrun. cbn [fst snd app].
  exists m. eexists. reflexivity.
Qed.

(** C7 (as amended): [train] checks nothing.  Whenever
    [_count * eliteSize] converts to an [unsigned int] at all — be the
    resulting [eliteCount] 0 or 1, the capacity 0, or [eliteSize] outside
    [0, 1] — the first thing the run does is call [reserve] for the whole
    capacity; and with a non-empty pool and [maxGen > 0] the first
    evaluation pass follows at once.  (A call without any mutator does
    not exist: the signature takes one mutator and the rest of the
    list.) *)
Theorem train_reserves_unchecked pSize visitor maxGen minErr eliteSize size
        mutator others eliteCount :
  to_unsigned (of_unsigned pSize * eliteSize) = Ok eliteCount ->
  let log := fst (run dist env pSize visitor maxGen minErr eliteSize size
                      mutator others) in
  (exists rest, log = EvReserve pSize :: rest) /\
  (0 < pSize < UINT_MOD -> 0 < maxGen ->
   exists m rest, log = EvReserve pSize :: EvEvaluate m :: rest).
Proof.
  intros Hec log. subst log. unfold run. rewrite train_unfold.
  cbn zeta. cbn [initial_world engine Trivial_new _count]. rewrite Hec.
  split.
  - destruct (generations _ _ _ _ _ _ _ _ _ _ _) as [eg [[g w2]|f]];
      [destruct (extract _ _ _ _) as [ex [[store w3]|f]]|];
      eexists; reflexivity.
  - intros Hsize Hgen.
    destruct (Z.to_nat maxGen) as [|remaining] eqn:E; [lia|].
    match goal with
    | |- context [generations _ _ _ _ _ _ _ _ _ _ ?w1] =>
        destruct (generations_start visitor minErr eliteCount mutator
                    others remaining 0 None w1) as (m & rest & Hstart)
    end.
    { apply reserved_sound, initial_well_formed. lia. }
    { simpl. lia. }
    destruct (generations _ _ _ _ _ _ _ _ _ _ _) as [eg [[g w2]|f]];
      cbn [fst] in Hstart; subst eg;
      [destruct (extract _ _ _ _) as [ex [[store w3]|f]]|];
      exists m; eexists; reflexivity.
Qed.

(** C2 (the code at [maxGen = 0]): the loop condition fails on
    [generation < maxGen] before [evaluate] is called, so the run makes
    no evaluation pass and no mutator call, and returns generation 0 with
    [minimum] never assigned — not the minimum of the initial pool. *)
Theorem train_zero_generations pSize visitor minErr eliteSize size
        mutator others :
  let out := run dist env pSize visitor 0 minErr eliteSize size
                 mutator others in
  minima (fst out) = [] /\ mutations (fst out) = [] /\
  match snd out with
  | Ok (o, _) => generation_of o = 0 /\ minimum_of o = None
  | Fault _ => True
  end.
Proof.
  intros out. subst out. unfold run. rewrite train_unfold.
  cbn zeta. destruct (to_unsigned _) as [eliteCount|f];
    [|repeat split].
  change (Z.to_nat 0) with O. cbn [generations]. unfold ret.
  match goal with
  | |- context [extract env ?n ?i ?w] =>
      destruct (extract_quiet n i w) as [Hmin Hmut];
      destruct (extract env n i w) as [ex [[store w3]|f]]
  end; cbn [fst snd] in *.
  - cbn [minima mutations flat_map app].
    fold (minima (ex ++ [EvRelease (_count (engine w3))])).
    fold (mutations (ex ++ [EvRelease (_count (engine w3))])).
    rewrite minima_app, mutations_app, Hmin, Hmut. repeat split.
  - cbn [minima mutations flat_map app].
    fold (minima ex). fold (mutations ex). rewrite Hmin, Hmut.
    repeat split.
Qed.

End Run.


(** ** Parent selection *)

(** C5 (the code at a failing input): over the weights [1, 1] (total 2) a
    draw of 3/4 — position 3/2 — leaves the accumulation loop at index 2,
    one past the last cell, where the first index whose cumulative weight
    exceeds 3/2 is 1; a draw of 1/4 gives index 1, where the specified
    index is 0. *)
Theorem pick_is_one_past :
  pick [Some 1; Some 1]%float 2 0.75 = Ok 2 /\
  first_cumulative [1; 1]%float (0.75 * 2) 0 0 = Some 1 /\
  pick [Some 1; Some 1]%float 2 0.25 = Ok 1 /\
  first_cumulative [1; 1]%float (0.25 * 2) 0 0 = Some 0.
Proof. repeat split; vm_compute; reflexivity. Qed.

(** On the board as the engine builds it, cell 0 was never written: any
    draw with a positive position starts by reading it. *)
Lemma pick_reads_cell_zero rest total u :
  (0 <? u * total)%float = true ->
  pick (None :: rest) total u = Fault Uninitialised.
Proof. intros H. unfold pick. cbn [accumulate]. rewrite H. reflexivity. Qed.

(** C6: with at least two elite slots, when both draws pick the same
    index inside [0, size), the second parent becomes the neighbour
    [index + 1], or [index - 1] when [index] is the last elite slot; it
    differs from the first parent and is an elite slot. *)
Theorem same_pick_is_separated score total size u1 u2 index :
  2 <= size < UINT_MOD -> 0 <= index < size ->
  pick score total u1 = Ok index -> pick score total u2 = Ok index ->
  exists mate,
    choose_parents score total size u1 u2 = Ok (index, mate) /\
    mate = (if index =? size - 1 then index - 1 else index + 1) /\
    mate <> index /\ 0 <= mate < size.
Proof.
  intros Hsize Hindex H1 H2. unfold choose_parents. rewrite H1, H2.
  cbn [rbind]. unfold separate. rewrite Z.eqb_refl.
  rewrite (wrap_small (size - 1)), (wrap_small (size - 2)),
    (wrap_small (index + 1)) by lia.
  eexists. split; [reflexivity|].
  destruct (Z.eqb_spec index 0); destruct (Z.eqb_spec index (size - 1));
    repeat split; lia.
Qed.

(** ** The model never runs out of budget *)

Lemma reverse_loop_fault ec score :
  forall n i reverse total f,
    reverse_loop n i ec score reverse total = Fault f -> f = OutOfBounds.
Proof.
  induction n as [|n IH]; intros i reverse total f H; simpl in H;
    [discriminate|].
  unfold rd, wr in H.
  destruct (lookup score i); cbn [rbind] in H; [|congruence].
  destruct (lookup reverse (reverse_index ec i)); cbn [rbind] in H;
    [|congruence].
  exact (IH _ _ _ _ H).
Qed.

Section Budget.
Context {C : Type}.
Variable dist : nat -> double.
Variable env : Environment C.

Lemma generation_body_fault visitor eliteCount mutator others (w : world C) :
  sound w -> 0 < _count (engine w) -> 0 <= eliteCount < UINT_MOD ->
  forall evs f,
    generation_body dist visitor eliteCount mutator others w =
      (evs, Fault f) -> f = OutOfBounds.
Proof.
  intros [Hwf Hnd] Hpos Hec evs f. unfold generation_body.
  unfold bind at 1. unfold get_engine at 1. unfold bind at 1.
  unfold lift at 1.
  destruct (build_reverse (engine w) eliteCount) as [[st1 total]|f'] eqn:Hb.
  - destruct (build_reverse_inv _ _ _ _ Hb) as (reverse & -> & Hlen).
    assert (Hlt : eliteCount < _count (engine w)).
    { destruct (Z_lt_le_dec eliteCount (_count (engine w))); [assumption|].
      rewrite build_reverse_out_of_bounds in Hb by (auto; lia).
      discriminate. }
    unfold bind at 1. unfold put_engine at 1.
    set (w1 := with_engine w (fst (with_reverse (engine w) reverse, total))).
    assert (Hwf1 : well_formed (engine w1)).
    { unfold well_formed in *. simpl. rewrite Hlen. exact Hwf. }
    destruct (recycle_spec dist total eliteCount mutator others
                (Z.to_nat (_count (engine w) - eliteCount)) eliteCount w1
                Hwf1 ltac:(lia) ltac:(simpl; lia))
      as (evr & w' & Hrun & _).
    unfold bind, emit, ret. cbn [snd].
    destruct visitor; cbn beta iota; rewrite Hrun; discriminate.
  - intros [= _ <-]. unfold build_reverse in Hb.
    destruct (reverse_loop _ _ _ _ _ _) as [[r t]|f''] eqn:E;
      [discriminate|].
    cbn [rbind] in Hb. injection Hb as <-.
    exact (reverse_loop_fault _ _ _ _ _ _ _ E).
Qed.

Lemma generations_never_exhausted visitor minErr eliteCount mutator others :
  0 <= eliteCount < UINT_MOD ->
  forall remaining generation minimum (w : world C),
    sound w ->
    forall evs r,
      generations dist env visitor minErr eliteCount mutator others
                  remaining generation minimum w = (evs, r) ->
      r <> Fault Exhausted /\
      forall g w', r = Ok (g, w') -> well_formed (engine w').
Proof.
  intros Hec. induction remaining as [|remaining IH];
    intros generation minimum w Hs evs r H.
  - injection H as _ <-. split; [discriminate|].
    intros g w' [= _ <-]. apply Hs.
  - cbn [generations] in H. unfold bind at 1 in H.
    destruct Hs as [Hwf Hnd].
    destruct (Z.eq_dec (_count (engine w)) 0) as [Hzero|Hnz].
    { rewrite (evaluate_empty env w Hwf Hzero) in H. injection H as _ <-.
      split; [discriminate|]. intros g w' [=]. }
    assert (Hpos : 0 < _count (engine w)) by (destruct Hwf; lia).
    destruct (evaluate_spec env w Hwf Hpos)
      as (m & st' & Hrun & Hwf' & _ & Hperm & Hsorted & Hm).
    pose proof (pass_pool env w st' Hwf' Hperm) as Hpool.
    rewrite Hrun in H. set (w1 := with_engine w st') in *.
    assert (Hs1 : sound w1).
    { split; [exact Hwf'|]. apply (Permutation_NoDup Hpool Hnd). }
    assert (Hpos1 : 0 < _count (engine w1)).
    { destruct Hwf' as (_ & _ & Hl & _). apply lookup_Some_range in Hm.
      simpl. lia. }
    destruct (minErr <? m)%float.
    + unfold bind at 1 in H.
      destruct (generation_body dist visitor eliteCount mutator others w1)
        as [eb [[u w2]|f]] eqn:Hbody.
      * destruct (generation_body_spec dist visitor eliteCount mutator
                    others w1 Hs1 Hpos1 Hec _ _ Hbody) as [_ Hok].
        destruct (Hok u w2 eq_refl) as (Hs2 & _).
        destruct (generations dist env visitor minErr eliteCount mutator
                    others remaining (wrap (generation + 1)) (Some m) w2)
          as [er rr] eqn:Hrest.
        injection H as _ <-. exact (IH _ _ w2 Hs2 er rr Hrest).
      * rewrite (generation_body_fault visitor eliteCount mutator others w1
                   Hs1 Hpos1 Hec _ _ Hbody) in H.
        injection H as _ <-. split; [discriminate|]. intros g w' [=].
    + injection H as _ <-. split; [discriminate|].
      intros g w' [= _ <-]. exact Hwf'.
Qed.

Lemma extract_fault :
  forall n i (w : world C) ex f,
    extract env n i w = (ex, Fault f) -> f = OutOfBounds.
Proof.
  induction n as [|n IH]; intros i w ex f H; [discriminate|].
  cbn [extract] in H.
  unfold bind, get_engine, get_world, lift, emit, ret, rd in H.
  destruct (lookup (_pool (engine w)) i) as [p|]; [|congruence].
  destruct (extract env n (wrap (i + 1)) w) as [ex' [[rest w']|f']] eqn:E;
    cbn in H; [discriminate|].
  injection H as _ <-. exact (IH _ _ _ _ E).
Qed.

(** No run of an engine of [unsigned] size ends because a budget of the
    model ran out: a run returns, or stops at an access outside an array
    or at an unrepresentable [eliteCount]. *)
Lemma run_never_exhausted pSize visitor maxGen minErr eliteSize size
      mutator others :
  0 <= pSize < UINT_MOD ->
  snd (run dist env pSize visitor maxGen minErr eliteSize size
           mutator others) <> Fault Exhausted.
Proof.
  intros Hsize. unfold run. rewrite train_unfold. cbn zeta.
  cbn [initial_world engine Trivial_new _count].
  destruct (to_unsigned _) as [eliteCount|f] eqn:Hec.
  - pose proof (to_unsigned_range _ _ Hec) as Hrange.
    match goal with
    | |- context [generations _ _ _ _ _ _ _ _ _ _ ?w1] =>
        pose proof (generations_never_exhausted visitor minErr eliteCount
                      mutator others Hrange (Z.to_nat maxGen) 0 None w1
                      (reserved_sound _ (initial_well_formed env pSize Hsize)))
          as Hgen
    end.
    destruct (generations _ _ _ _ _ _ _ _ _ _ _) as [eg [[g w2]|f]].
    + destruct (extract _ _ _ _) as [ex [[store w3]|f]] eqn:E;
        cbn [snd]; [discriminate|].
      rewrite (extract_fault _ _ _ _ _ E). discriminate.
    + cbn [snd]. intros [= ->]. exact (proj1 (Hgen eg _ eq_refl) eq_refl).
  - unfold to_unsigned in Hec.
    destruct (truncate _) as [t|];
      [destruct (_ && _); [discriminate|]|];
      injection Hec as <-; cbn [snd]; discriminate.
Qed.
End Budget.

(** ** The statements on a concrete engine *)


(** The run of C2 on four candidates: no evaluation, [minimum] unassigned,
    and the two candidates copied out are those of slots 0 and 1 of the
    unranked pool. *)
Example scalar_zero_generations :
  let out := run Scalar.coin (Scalar.env 0) 4 true 0 0 0.5 4
                 (Scalar.nudge 0.5) [] in
  fst out = [EvReserve 4; EvClone 0%nat; EvClone 1%nat; EvRelease 4] /\
  exists w, snd out = Ok (mkOutcome 0 None 2 [7; 17], w).
Proof.
  split; [vm_compute; reflexivity|]. eexists. vm_compute. reflexivity.
Qed.


Lemma scalar_ranked_well_formed : well_formed (engine Scalar.ranked).
Proof. unfold well_formed, UINT_MOD. simpl. lia. Defined.

Lemma scalar_scored_well_formed : well_formed Scalar.scored.
Proof. unfold well_formed, UINT_MOD. simpl. lia. Defined.


(** C1 (the claim as stated fails): when the environment answers NaN for
    the candidate of slot 0 and 0, 10 and 20 for the others, the pass
    leaves the scores in the order 10, 20, NaN, 0, which is not ascending,
    and returns 10 where the least score, 0, sits in slot 3.  The handles
    were still permuted with the scores. *)
Lemma nan_score_breaks_ranking :
  let st' := mkTrivial 4 [2; 3; 0; 1]%nat [10; 20; nan; 0]%float
                       [None; None; None; None] in
  scores_of (Scalar.spoiled 17 7) Scalar.reserved = [nan; 0; 10; 20]%float /\
  evaluate (Scalar.spoiled 17 7) Scalar.reserved =
    ([EvEvaluate 10], Ok (10%float, with_engine Scalar.reserved st')) /\
  ~ ascending (_score st').
Proof.
  split; [vm_compute; reflexivity|]. split; [vm_compute; reflexivity|].
  intros H. specialize (H 1 20%float nan eq_refl eq_refl).
  vm_compute in H. discriminate.
Qed.

Lemma qsort_terminates_witness :
  well_formed Scalar.scored /\ 0 <= 0 /\ 0 <= 3 /\ 3 < _count Scalar.scored /\
  (forall fuel, Z.of_nat fuel > 3 - 0 ->
     exists st', qsort fuel Scalar.scored 0 3 = Ok st') /\
  (0 < 3 ->
     exists st1 j, partition Scalar.scored 0 3 = Ok (st1, j) /\ 0 <= j < 3 /\
                   j - 0 < 3 - 0 /\ 3 - (j + 1) < 3 - 0).
Proof.
  split; [exact scalar_scored_well_formed|].
  split; [lia|]. split; [lia|]. split; [simpl; lia|].
  apply (qsort_terminates Scalar.scored 0 3 scalar_scored_well_formed);
    simpl; lia.
Defined.

Lemma reverse_board_from_elite_witness :
  well_formed (engine Scalar.ranked) /\
  0 <= 2 < _count (engine Scalar.ranked) /\
  exists reverse,
    build_reverse (engine Scalar.ranked) 2 =
      Ok (with_reverse (engine Scalar.ranked) reverse,
          fold_left add (firstn 2 (_score (engine Scalar.ranked)))
                    0%float) /\
    (forall i, 0 <= i < 2 ->
       lookup reverse (2 - i) =
         Some (lookup (_score (engine Scalar.ranked)) i)) /\
    lookup reverse 0 = Some None.
Proof.
  split; [exact scalar_ranked_well_formed|]. split; [simpl; lia|].
  destruct (reverse_board_from_elite (engine Scalar.ranked) 2
              scalar_ranked_well_formed ltac:(simpl; lia))
    as (reverse & Hrun & Hcells & _ & Hzero).
  exists reverse. split; [exact Hrun|]. split; [exact Hcells|].
  apply Hzero. reflexivity.
Defined.

Lemma reverse_board_bounds_witness :
  well_formed (engine Scalar.ranked) /\
  0 < _count (engine Scalar.ranked) /\ 0 <= 4 < UINT_MOD /\
  reverse_index 4 0 = 4 /\
  build_reverse (engine Scalar.ranked) 4 = Fault OutOfBounds /\
  ((exists r, build_reverse (engine Scalar.ranked) 4 = Ok r) <->
     4 < _count (engine Scalar.ranked)).
Proof.
  split; [exact scalar_ranked_well_formed|]. split; [simpl; lia|].
  split; [unfold UINT_MOD; lia|].
  destruct (reverse_board_bounds (engine Scalar.ranked) 4
              scalar_ranked_well_formed ltac:(simpl; lia)
              ltac:(unfold UINT_MOD; lia))
    as (_ & _ & _ & _ & Hiff & Hout).
  destruct (Hout ltac:(simpl; lia)) as (Hidx & _ & Hfault).
  split; [exact Hidx|]. split; [exact Hfault|exact Hiff].
Defined.

Lemma cascade_one_offspring_per_slot_witness :
  well_formed (engine Scalar.ranked) /\ 0 <= 2 /\
  exists evs w',
    recycle Scalar.coin 2 2 24 2 (Scalar.nudge 0.5)
            [Scalar.nudge 0.25] Scalar.ranked = (evs, Ok (tt, w')) /\
    offspring_chain Scalar.coin 24 2 (Scalar.nudge 0.5)
                    [Scalar.nudge 0.25] 2 Scalar.ranked evs w' /\
    map fst (mutations evs) = [2; 3] /\ length evs = 2%nat /\
    calls w' = 2%nat.
Proof.
  split; [exact scalar_ranked_well_formed|]. split; [lia|].
  destruct (cascade_one_offspring_per_slot Scalar.coin 24 2
              (Scalar.nudge 0.5) [Scalar.nudge 0.25] Scalar.ranked
              scalar_ranked_well_formed ltac:(lia))
    as (_ & evs & w' & Hrun & Hchain & _ & Hslots & Hlen & _ & Hcalls).
  exists evs, w'. split; [exact Hrun|]. split; [exact Hchain|].
  split; [exact Hslots|]. split; [exact Hlen|exact Hcalls].
Defined.

Lemma same_pick_is_separated_witness :
  2 <= 2 < UINT_MOD /\ 0 <= 1 < 2 /\
  pick [Some 1; Some 1]%float 2 0.25 = Ok 1 /\
  exists mate,
    choose_parents [Some 1; Some 1]%float 2 2 0.25 0.25 = Ok (1, mate) /\
    mate = (if 1 =? 2 - 1 then 1 - 1 else 1 + 1) /\
    mate <> 1 /\ 0 <= mate < 2.
Proof.
  split; [unfold UINT_MOD; lia|]. split; [lia|].
  split; [vm_compute; reflexivity|].
  apply (same_pick_is_separated [Some 1; Some 1]%float 2 2 0.25 0.25 1);
    [unfold UINT_MOD; lia|lia|vm_compute; reflexivity
    |vm_compute; reflexivity].
Defined.

Lemma train_reserves_unchecked_witness :
  to_unsigned (of_unsigned 4 * 0) = Ok 0 /\
  exists rest,
    fst (run Scalar.coin (Scalar.env 0) 4 true 1 0 0 4
             (Scalar.nudge 0.5) []) = EvReserve 4 :: rest.
Proof.
  split; [vm_compute; reflexivity|].
  apply (train_reserves_unchecked Scalar.coin (Scalar.env 0) 4 true 1 0 0 4
           (Scalar.nudge 0.5) [] 0).
  vm_compute. reflexivity.
Defined.


(** C8 (the claim as stated fails): the environment is deterministic and
    [eliteCount] is 2, but it answers NaN for the candidate 6.  The first
    pass returns 7; the first offspring is 6, and the second pass, which
    ranks the scores 7, 17, NaN and 8, returns NaN, which is not at most
    7 (no comparison with a NaN holds), although the candidate scored 7
    is still in the pool. *)
Lemma nan_score_follows_a_number :
  let out := run Scalar.coin (Scalar.spoiled 0 6) 4 true 3 0 0.5 4
                 (Scalar.nudge 0.5) [Scalar.nudge 0.25] in
  to_unsigned (of_unsigned 4 * 0.5) = Ok 2 /\
  minima (fst out) = [7; nan]%float /\
  ~ non_increasing (minima (fst out)).
Proof.
  intros out. split; [vm_compute; reflexivity|].
  assert (H : minima (fst out) = [7; nan]%float) by (vm_compute; reflexivity).
  split; [exact H|]. rewrite H. intros Hni.
  specialize (Hni O 7%float nan eq_refl eq_refl).
  vm_compute in Hni. discriminate.
Qed.

(** C7 (the claim as stated fails): with [eliteSize = 0], hence
    [eliteCount == 0], the run reports nothing; it reserves the pool,
    evaluates it, visits, calls a mutator on all four slots, releases and
    returns one generation. *)
Lemma zero_elite_runs_a_generation :
  let out := run Scalar.coin (Scalar.env 0) 4 true 1 0 0 4
                 (Scalar.nudge 0.5) [] in
  to_unsigned (of_unsigned 4 * 0) = Ok 0 /\
  fst out = [EvReserve 4; EvEvaluate 7; EvVisit 0; EvMutate 0 0;
             EvMutate 1 0; EvMutate 2 0; EvMutate 3 0; EvRelease 4] /\
  exists w, snd out = Ok (mkOutcome 1 (Some 7%float) 0 [], w).
Proof.
  split; [vm_compute; reflexivity|]. split; [vm_compute; reflexivity|].
  eexists. vm_compute. reflexivity.
Qed.

(** ** More on the ranker *)







(** ** More on the evaluation pass *)


Section PassFacts.
Context {C : Type}.
Variable env : Environment C.

End PassFacts.



(** ** More on logs *)

Lemma visits_app l1 l2 : visits (l1 ++ l2) = visits l1 ++ visits l2.
Proof. apply flat_map_app. Qed.

Lemma clones_app l1 l2 : clones (l1 ++ l2) = clones l1 ++ clones l2.
Proof. apply flat_map_app. Qed.

Lemma lifecycle_app l1 l2 :
  lifecycle (l1 ++ l2) = lifecycle l1 ++ lifecycle l2.
Proof. apply filter_app. Qed.

(** A log made of one mutator call per slot of [l]. *)
Lemma mutation_log (P : Z -> event -> Prop) l evs :
  (forall pos ev, P pos ev -> exists k, ev = EvMutate pos k) ->
  Forall2 P l evs ->
  minima evs = [] /\ visits evs = [] /\ clones evs = [] /\
  lifecycle evs = [] /\ map fst (mutations evs) = l.
Proof.
  intros HP. induction 1 as [|pos ev l evs Hev _ IH];
    [repeat split; reflexivity|].
  destruct (HP pos ev Hev) as [k ->].
  destruct IH as (H1 & H2 & H3 & H4 & H5).
  repeat split; try assumption. simpl. rewrite H5. reflexivity.
Qed.

Lemma last_cons_default {A} (x : A) l d : last (x :: l) d = last l x.
Proof.
  revert x d. induction l as [|y t IH]; intros x d; [reflexivity|].
  change (last (x :: y :: t) d) with (last (y :: t) d).
  rewrite !IH. reflexivity.
Qed.


(** ** More on the generation loop *)

Section LoopFacts.
Context {C : Type}.
Variable dist : nat -> double.
Variable env : Environment C.

Lemma generation_body_returns visitor eliteCount mutator others
      (w : world C) evs u w' :
  sound w -> 0 < _count (engine w) -> 0 <= eliteCount < UINT_MOD ->
  generation_body dist visitor eliteCount mutator others w =
    (evs, Ok (u, w')) ->
  eliteCount < _count (engine w) /\
  sound w' /\
  _pool (engine w') = _pool (engine w) /\
  _score (engine w') = _score (engine w) /\
  _count (engine w') = _count (engine w) /\
  (exists evr,
     evs = (if visitor then [EvVisit eliteCount] else []) ++ evr /\
     Forall2
       (fun pos ev =>
          exists t,
            ev = EvMutate pos
                   (cascade_choice (map threshold (mutator :: others))
                                   (fun j => dist (t + j)%nat)))
       (slots eliteCount (Z.to_nat (_count (engine w) - eliteCount))) evr) /\
  (forall h,
     (forall pos, eliteCount <= pos ->
                  lookup (_pool (engine w)) pos <> Some h) ->
     store_of w' h = store_of w h).
Proof.
  intros [Hwf Hnd] Hpos Hec. unfold generation_body.
  unfold bind at 1. unfold get_engine at 1. unfold bind at 1.
  unfold lift at 1.
  destruct (build_reverse (engine w) eliteCount) as [[st1 total]|f] eqn:Hb;
    [|discriminate].
  destruct (build_reverse_inv _ _ _ _ Hb) as (reverse & -> & Hlen).
  assert (Hlt : eliteCount < _count (engine w)).
  { destruct (Z_lt_le_dec eliteCount (_count (engine w))); [assumption|].
    rewrite build_reverse_out_of_bounds in Hb by (auto; lia).
    discriminate. }
  unfold bind at 1. unfold put_engine at 1.
  set (w1 := with_engine w (fst (with_reverse (engine w) reverse, total))).
  assert (Hwf1 : well_formed (engine w1)).
  { unfold well_formed in *. simpl. rewrite Hlen. exact Hwf. }
  destruct (recycle_spec dist total eliteCount mutator others
              (Z.to_nat (_count (engine w) - eliteCount)) eliteCount w1
              Hwf1 ltac:(lia) ltac:(simpl; lia))
    as (evr & w2 & Hrun & He & Hall & Hframe & _).
  unfold bind, emit, ret. cbn [snd].
  destruct visitor; cbn beta iota; rewrite Hrun; cbn [app];
    intros [= <- <- <-]; (split; [exact Hlt|]); unfold sound; rewrite He;
    (split; [split; [exact Hwf1|exact Hnd]|]);
    (split; [reflexivity|]); (split; [reflexivity|]);
    (split; [reflexivity|]);
    (split; [exists evr; split; [reflexivity|exact Hall]|exact Hframe]).
Qed.

(** X4: the body of a generation never touches the elite: when it
    returns, the pool and the scores are what they were and every
    candidate designated by a slot of [0, eliteCount) has the content it
    had. *)
Theorem generation_keeps_elite visitor eliteCount mutator others
        (w : world C) evs u w' :
  sound w -> 0 < _count (engine w) -> 0 <= eliteCount < UINT_MOD ->
  generation_body dist visitor eliteCount mutator others w =
    (evs, Ok (u, w')) ->
  _pool (engine w') = _pool (engine w) /\
  _score (engine w') = _score (engine w) /\
  forall r h, 0 <= r < eliteCount ->
    lookup (_pool (engine w)) r = Some h -> store_of w' h = store_of w h.
Proof.
  intros Hs Hpos Hec Hrun.
  destruct (generation_body_returns visitor eliteCount mutator others w
              evs u w' Hs Hpos Hec Hrun)
    as (_ & _ & Hp & Hsc & _ & _ & Hframe).
  split; [exact Hp|]. split; [exact Hsc|].
  intros r h Hr Hh. apply Hframe. intros pos Hpos' Hdup.
  pose proof (NoDup_lookup _ _ _ _ (proj2 Hs) Hdup Hh). lia.
Qed.

(** What a returning generation loop has done. *)
Lemma generations_returns visitor minErr eliteCount mutator others :
  0 <= eliteCount < UINT_MOD ->
  forall remaining generation minimum (w : world C) evs g' min' w',
    sound w -> 0 <= generation ->
    generation + Z.of_nat remaining < UINT_MOD ->
    (forall b, minimum = Some b -> elite_ranked env eliteCount w b) ->
    generations dist env visitor minErr eliteCount mutator others
                remaining generation minimum w = (evs, Ok ((g', min'), w')) ->
    sound w' /\ _count (engine w') = _count (engine w) /\
    generation <= g' <= generation + Z.of_nat remaining /\
    Z.of_nat (length (minima evs)) =
      (if g' <? generation + Z.of_nat remaining
       then g' - generation + 1 else Z.of_nat remaining) /\
    (g' < generation + Z.of_nat remaining ->
     exists m, min' = Some m /\ (minErr <? m)%float = false) /\
    min' = last (map Some (minima evs)) minimum /\
    (forall m, min' = Some m -> elite_ranked env eliteCount w' m) /\
    Z.of_nat (length (mutations evs)) =
      (g' - generation) * (_count (engine w) - eliteCount) /\
    visits evs =
      (if visitor then repeat eliteCount (Z.to_nat (g' - generation))
       else []) /\
    lifecycle evs = [] /\ clones evs = [].
Proof.
  intros Hec. induction remaining as [|remaining IH];
    intros generation minimum w evs g' min' w' Hs Hg Hmax Hb H.
  - unfold ret in H. injection H as E1 E2 E3 E4. subst evs g' min' w'.
    split; [exact Hs|]. split; [reflexivity|]. split; [lia|].
    split; [destruct (Z.ltb_spec generation (generation + Z.of_nat 0));
            simpl; lia|].
    split; [intros Hlt; simpl in Hlt; lia|]. split; [reflexivity|].
    split; [exact Hb|]. split; [simpl; lia|].
    split; [|split; reflexivity].
    replace (generation - generation) with 0 by lia.
    destruct visitor; reflexivity.
  - cbn [generations] in H. unfold bind at 1 in H.
    destruct Hs as [Hwf Hnd].
    destruct (Z.eq_dec (_count (engine w)) 0) as [Hzero|Hnz].
    { rewrite (evaluate_empty env w Hwf Hzero) in H. discriminate. }
    assert (Hpos : 0 < _count (engine w)) by (destruct Hwf; lia).
    destruct (evaluate_spec env w Hwf Hpos)
      as (m & st' & Hrun & Hwf' & _ & Hperm & Hsorted & Hm).
    pose proof (pass_pool env w st' Hwf' Hperm) as Hpool.
    rewrite Hrun in H. set (w1 := with_engine w st') in *.
    assert (Hs1 : sound w1).
    { split; [exact Hwf'|]. apply (Permutation_NoDup Hpool Hnd). }
    assert (Hc1 : _count (engine w1) = _count (engine w)).
    { destruct Hwf as (_ & Hp & _). destruct Hwf' as (_ & Hp' & _).
      apply Permutation_length in Hpool. simpl. lia. }
    assert (Hpos1 : 0 < _count (engine w1)) by lia.
    assert (Hranked : elite_ranked env eliteCount w1 m).
    { split; [|split; [exact Hm|]].
      - intros Hnum. apply (sorted_on_ascending _ (_count st'));
          [apply Hwf'|]. apply Hsorted, scores_of_numbers, Hnum.
      - intros r h x _ Hh Hx.
        apply (pass_pairing env w st' Hperm r h x Hh Hx). }
    destruct (minErr <? m)%float eqn:Hcmp.
    + unfold bind at 1 in H.
      destruct (generation_body dist visitor eliteCount mutator others w1)
        as [eb [[u w2]|f]] eqn:Hbody; [|discriminate].
      destruct (generation_body_returns visitor eliteCount mutator others
                  w1 eb u w2 Hs1 Hpos1 Hec Hbody)
        as (Hlt & Hs2 & Hp2 & Hsc2 & Hc2 & (evr & -> & Hall) & Hframe).
      destruct (mutation_log _ _ _
                  (fun pos ev (E : exists t, ev = EvMutate pos _) =>
                     match E with ex_intro _ t Et => ex_intro _ _ Et end)
                  Hall)
        as (Hq1 & Hq2 & Hq3 & Hq4 & Hq5).
      destruct (generations dist env visitor minErr eliteCount mutator
                  others remaining (wrap (generation + 1)) (Some m) w2)
        as [er rr] eqn:Hrest.
      injection H as <- ->.
      rewrite (wrap_small (generation + 1)) in Hrest by lia.
      assert (Hranked2 : forall b, Some m = Some b ->
                                   elite_ranked env eliteCount w2 b).
      { intros b [= <-]. destruct Hranked as (Hasc & Hm1 & Hpair).
        unfold elite_ranked. rewrite Hp2, Hsc2.
        split; [exact Hasc|]. split; [exact Hm1|].
        intros r h x Hr Hh Hx. rewrite Hframe; [apply (Hpair r); auto|].
        intros pos Hpos' Hdup.
        pose proof (NoDup_lookup _ _ _ _ (proj2 Hs1) Hdup Hh). lia. }
      destruct (IH (generation + 1) (Some m) w2 er g' min' w' Hs2
                   ltac:(lia) ltac:(lia) Hranked2 Hrest)
        as (Hs' & Hc' & Hg' & Hlen & Hstop & Hlast & Hrk & Hmut & Hvis
            & Hlife & Hcl).
      assert (Hslots : length (mutations evr) =
                       Z.to_nat (_count (engine w1) - eliteCount)).
      { rewrite <- (length_map fst), Hq5. unfold slots.
        rewrite length_map, length_seq. reflexivity. }
      set (pre := if visitor then [EvVisit eliteCount] else []).
      assert (Hpre : minima pre = [] /\ mutations pre = [] /\
                     lifecycle pre = [] /\ clones pre = [] /\
                     visits pre = if visitor then [eliteCount] else []).
      { subst pre. destruct visitor; repeat split; reflexivity. }
      destruct Hpre as (Hp1 & Hp3 & Hp4 & Hp5 & Hp6).
      split; [exact Hs'|]. split; [lia|]. split; [lia|].
      change (EvEvaluate m :: (pre ++ evr) ++ er)
        with ([EvEvaluate m] ++ (pre ++ evr) ++ er).
      rewrite !minima_app, !mutations_app, !visits_app, !lifecycle_app,
        !clones_app, Hq1, Hq2, Hq3, Hq4, Hlife, Hcl, Hvis,
        Hp1, Hp3, Hp4, Hp5, Hp6.
      change (minima [EvEvaluate m]) with [m].
      change (mutations [EvEvaluate m]) with (@nil (Z * nat)).
      change (lifecycle [EvEvaluate m]) with (@nil event).
      change (clones [EvEvaluate m]) with (@nil handle).
      change (visits [EvEvaluate m]) with (@nil Z).
      cbn [app]. split; [|split; [|split; [|split; [exact Hrk|]]]].
      * cbn [length]. rewrite Nat2Z.inj_succ, Hlen.
        destruct (Z.ltb_spec g' (generation + 1 + Z.of_nat remaining));
          destruct (Z.ltb_spec g' (generation + Z.of_nat (S remaining)));
          lia.
      * intros Hlt'. apply Hstop. lia.
      * cbn [map]. rewrite last_cons_default. exact Hlast.
      * split; [|split; [|split; reflexivity]].
        -- rewrite length_app, Nat2Z.inj_add, Hmut, Hslots, Hc2. lia.
        -- replace (Z.to_nat (g' - generation))
             with (S (Z.to_nat (g' - (generation + 1)))) by lia.
           destruct visitor; reflexivity.
    + unfold ret in H. injection H as E1 E2 E3 E4. subst evs g' min' w'.
      split; [exact Hs1|]. split; [exact Hc1|]. split; [lia|].
      split; [destruct (Z.ltb_spec generation
                          (generation + Z.of_nat (S remaining)));
              simpl; lia|].
      split; [intros _; exists m; split; [reflexivity|exact Hcmp]|].
      split; [reflexivity|].
      split; [intros b [= <-]; exact Hranked|].
      split; [simpl; lia|]. split; [|split; reflexivity].
      replace (generation - generation) with 0 by lia.
      destruct visitor; reflexivity.
Qed.
End LoopFacts.


(** ** More on whole runs *)

Section RunFacts.
Context {C : Type}.
Variable dist : nat -> double.
Variable env : Environment C.

Lemma extract_returns :
  forall n i (w : world C) ex store w',
    well_formed (engine w) -> 0 <= i <= _count (engine w) ->
    extract env n i w = (ex, Ok (store, w')) ->
    let elite := firstn n (skipn (Z.to_nat i) (_pool (engine w))) in
    w' = w /\ i + Z.of_nat n <= _count (engine w) /\
    length elite = n /\ ex = map EvClone elite /\
    store = map (fun p => clone env (store_of w p)) elite.
Proof.
  induction n as [|n IH]; intros i w ex store w' Hwf Hi H.
  - unfold extract, ret in H. injection H as E1 E2 E3. subst ex store w'.
    simpl. repeat split; try reflexivity. lia.
  - pose proof Hwf as (Hc & Hp & _). cbn [extract] in H.
    unfold bind, get_engine, get_world, lift, emit, ret, rd in H.
    destruct (lookup (_pool (engine w)) i) as [p|] eqn:Hp0;
      [|discriminate].
    pose proof (lookup_Some_range _ _ _ Hp0) as Hr.
    rewrite (wrap_small (i + 1)) in H by lia.
    destruct (extract env n (i + 1) w) as [ex' [[rest w2]|f]] eqn:E;
      cbn in H; [|discriminate].
    injection H as E1 E2 E3. subst ex store w'.
    destruct (IH (i + 1) w ex' rest w2 Hwf ltac:(lia) E)
      as (-> & Hn & Hlen & -> & ->).
    cbv zeta. rewrite (skipn_lookup _ _ _ Hp0). cbn [firstn length map].
    rewrite app_nil_r. repeat split; try reflexivity; try lia.
Qed.

Lemma wrap_to_int g : 0 <= g < UINT_MOD -> wrap (to_int g) = g.
Proof.
  intros H. unfold to_int. destruct (g <? 2 ^ 31).
  - apply wrap_small, H.
  - unfold wrap. replace (g - UINT_MOD) with (g + (-1) * UINT_MOD) by lia.
    rewrite Z_mod_plus_full. apply Z.mod_small, H.
Qed.

Lemma to_int_small g : g < 2 ^ 31 -> to_int g = g.
Proof.
  intros H. unfold to_int. destruct (Z.ltb_spec g (2 ^ 31)); [reflexivity|].
  lia.
Qed.

(** The shape of a run that returns; [g] and [number] are the unsigned
    values that [train] converts to the [int]s of its tuple. *)
Lemma run_returns pSize visitor maxGen minErr eliteSize size mutator others
      o (w : world C) :
  0 <= pSize < UINT_MOD -> 0 <= maxGen < UINT_MOD ->
  snd (run dist env pSize visitor maxGen minErr eliteSize size
           mutator others) = Ok (o, w) ->
  exists eliteCount eg w1 g,
    to_unsigned (of_unsigned pSize * eliteSize) = Ok eliteCount /\
    sound w1 /\ _count (engine w1) = pSize /\
    generations dist env visitor minErr eliteCount mutator others
                (Z.to_nat maxGen) 0 None w1 =
      (eg, Ok ((g, minimum_of o), w)) /\
    generation_of o = to_int g /\
    let number := if eliteCount <? size then eliteCount else size in
    let elite := firstn (Z.to_nat number) (_pool (engine w)) in
    number_of o = to_int number /\
    (number <> 0 -> number <= pSize) /\
    length elite = Z.to_nat number /\
    stored o = map (fun p => clone env (store_of w p)) elite /\
    fst (run dist env pSize visitor maxGen minErr eliteSize size
             mutator others) =
      EvReserve pSize :: eg ++ map EvClone elite ++ [EvRelease pSize].
Proof.
  intros Hsize Hgen. unfold run. rewrite train_unfold. cbn zeta.
  cbn [initial_world engine Trivial_new _count].
  destruct (to_unsigned _) as [eliteCount|f] eqn:Hec; [|discriminate].
  pose proof (to_unsigned_range _ _ Hec) as Hrange.
  match goal with
  | |- context [generations _ _ _ _ _ _ _ _ _ _ ?w0] => set (w1 := w0)
  end.
  assert (Hs1 : sound w1).
  { apply reserved_sound, initial_well_formed. exact Hsize. }
  destruct (generations _ _ _ _ _ _ _ _ _ _ _) as [eg [[[g m] w2]|f]] eqn:Hg;
    [|discriminate].
  destruct (generations_returns dist env visitor minErr eliteCount mutator
              others Hrange (Z.to_nat maxGen) 0 None w1 eg g m w2 Hs1
              ltac:(lia) ltac:(lia) ltac:(discriminate) Hg)
    as (Hs2 & Hc2 & _).
  destruct (extract _ _ _ _) as [ex [[store w3]|f]] eqn:Hex;
    [|discriminate].
  assert (Hb0 : 0 <= 0 <= _count (engine w2))
    by (destruct Hs2 as [(Hc & _) _]; lia).
  destruct (extract_returns _ 0 w2 _ _ _ (proj1 Hs2) Hb0 Hex)
    as (-> & Hn & Hlen & -> & ->).
  cbn [fst snd]. intros [= <- <-]. exists eliteCount, eg, w1, g.
  split; [reflexivity|]. split; [exact Hs1|]. split; [reflexivity|].
  split; [exact Hg|]. cbn [generation_of minimum_of number_of stored].
  split; [reflexivity|].
  rewrite skipn_O in *. cbn zeta. split; [reflexivity|].
  split; [|split; [exact Hlen|split; [reflexivity|]]].
  - intros _. rewrite Hc2 in Hn. simpl in Hn. revert Hn.
    destruct (eliteCount <? size); lia.
  - rewrite Hc2. reflexivity.
Qed.

Lemma run_log_parts p eg (elite : list handle) :
  lifecycle eg = [] -> clones eg = [] ->
  let log := EvReserve p :: eg ++ map EvClone elite ++ [EvRelease p] in
  minima log = minima eg /\ mutations log = mutations eg /\
  visits log = visits eg /\ clones log = elite /\
  lifecycle log = [EvReserve p; EvRelease p].
Proof.
  intros Hlife Hcl log. subst log.
  change (EvReserve p :: eg ++ map EvClone elite ++ [EvRelease p])
    with ([EvReserve p] ++ eg ++ map EvClone elite ++ [EvRelease p]).
  rewrite !minima_app, !mutations_app, !visits_app, !clones_app,
    !lifecycle_app, Hlife, Hcl.
  assert (H : minima (map EvClone elite) = [] /\
              mutations (map EvClone elite) = [] /\
              visits (map EvClone elite) = [] /\
              clones (map EvClone elite) = elite /\
              lifecycle (map EvClone elite) = []).
  { induction elite as [|h t (H1 & H2 & H3 & H4 & H5)];
      [repeat split; reflexivity|].
    repeat split; try assumption. simpl. rewrite H4. reflexivity. }
  destruct H as (-> & -> & -> & -> & ->). cbn [app].
  rewrite !app_nil_r. repeat split; reflexivity.
Qed.


(** X6: the calls of a run that returns after [g] generations ([g] being
    the [unsigned] counter that [train] returns converted to [int], and
    the value returned itself when [maxGen < 2^31]): [g + 1] evaluation
    passes when it stopped on the threshold and [g = maxGen] passes when
    it used up its budget; one mutator call per generation for each of
    the [_count - eliteCount] slots after the elite; and, with an
    observer, one visit of [eliteCount] slots per generation. *)
Theorem run_call_counts pSize visitor maxGen minErr eliteSize size
        mutator others eliteCount o (w : world C) :
  0 <= pSize < UINT_MOD -> 0 <= maxGen < UINT_MOD ->
  to_unsigned (of_unsigned pSize * eliteSize) = Ok eliteCount ->
  snd (run dist env pSize visitor maxGen minErr eliteSize size
           mutator others) = Ok (o, w) ->
  let log := fst (run dist env pSize visitor maxGen minErr eliteSize size
                      mutator others) in
  let g := wrap (generation_of o) in
  (maxGen < 2 ^ 31 -> generation_of o = g) /\
  Z.of_nat (length (minima log)) = (if g <? maxGen then g + 1 else maxGen) /\
  Z.of_nat (length (mutations log)) = g * (pSize - eliteCount) /\
  visits log = (if visitor then repeat eliteCount (Z.to_nat g) else []).
Proof.
  intros Hsize Hgen Hec Hok log g. subst log g.
  destruct (run_returns pSize visitor maxGen minErr eliteSize size mutator
              others o w Hsize Hgen Hok)
    as (ec & eg & w1 & g & Hec' & Hs1 & Hc1 & Hg & Hgo & _ & _ & _ & _ & ->).
  rewrite Hec in Hec'. injection Hec' as <-.
  destruct (generations_returns dist env visitor minErr eliteCount mutator
              others (to_unsigned_range _ _ Hec) (Z.to_nat maxGen) 0 None
              w1 eg _ _ w Hs1 ltac:(lia) ltac:(lia) ltac:(discriminate) Hg)
    as (_ & _ & Hb & Hlen & _ & _ & _ & Hmut & Hvis & Hlife & Hcl).
  destruct (run_log_parts pSize eg
              (firstn (Z.to_nat (if eliteCount <? size
                                 then eliteCount else size))
                      (_pool (engine w))) Hlife Hcl)
    as (-> & -> & -> & _).
  rewrite Hgo, wrap_to_int by lia.
  split; [intros Hsmall; apply to_int_small; lia|].
  rewrite Hlen, Hmut, Hvis, Hc1, Z.sub_0_r, Z.add_0_l, Z2Nat.id by lia.
  repeat split; reflexivity.
Qed.

(** X7: a run that returns has called [reserve] exactly once, before
    anything else, and [release] exactly once, after everything else, both
    for the whole capacity. *)
Theorem run_reserves_and_releases_once pSize visitor maxGen minErr
        eliteSize size mutator others o (w : world C) :
  0 <= pSize < UINT_MOD -> 0 <= maxGen < UINT_MOD ->
  snd (run dist env pSize visitor maxGen minErr eliteSize size
           mutator others) = Ok (o, w) ->
  let log := fst (run dist env pSize visitor maxGen minErr eliteSize size
                      mutator others) in
  lifecycle log = [EvReserve pSize; EvRelease pSize] /\
  (exists rest, log = EvReserve pSize :: rest) /\
  (exists front, log = front ++ [EvRelease pSize]).
Proof.
  intros Hsize Hgen Hok log. subst log.
  destruct (run_returns pSize visitor maxGen minErr eliteSize size mutator
              others o w Hsize Hgen Hok)
    as (ec & eg & w1 & g & Hec & Hs1 & Hc1 & Hg & _ & _ & _ & _ & _ & ->).
  destruct (generations_returns dist env visitor minErr ec mutator others
              (to_unsigned_range _ _ Hec) (Z.to_nat maxGen) 0 None w1 eg
              _ _ w Hs1 ltac:(lia) ltac:(lia) ltac:(discriminate) Hg)
    as (_ & _ & _ & _ & _ & _ & _ & _ & _ & Hlife & Hcl).
  destruct (run_log_parts pSize eg
              (firstn (Z.to_nat (if ec <? size then ec else size))
                      (_pool (engine w))) Hlife Hcl) as (_ & _ & _ & _ & ->).
  split; [reflexivity|]. split; [eexists; reflexivity|].
  exists (EvReserve pSize :: eg ++
          map EvClone (firstn (Z.to_nat (if ec <? size then ec else size))
                              (_pool (engine w)))).
  cbn [app]. rewrite <- app_assoc. reflexivity.
Qed.

(** X8: a run that returns copies out [n = min(eliteCount, size)]
    candidates, no more than the pool holds: the clones, in slot order, of
    the candidates designated by the first [n] slots of the pool.  The
    number it returns is [n] converted to [int], which is [n] itself
    below [2^31]. *)
Theorem run_copies_out_first_slots pSize visitor maxGen minErr eliteSize
        size mutator others eliteCount o (w : world C) :
  0 <= pSize < UINT_MOD -> 0 <= maxGen < UINT_MOD ->
  to_unsigned (of_unsigned pSize * eliteSize) = Ok eliteCount ->
  snd (run dist env pSize visitor maxGen minErr eliteSize size
           mutator others) = Ok (o, w) ->
  let log := fst (run dist env pSize visitor maxGen minErr eliteSize size
                      mutator others) in
  let n := Z.min eliteCount size in
  let elite := firstn (Z.to_nat n) (_pool (engine w)) in
  number_of o = to_int n /\
  (n < 2 ^ 31 -> number_of o = n) /\
  (n <> 0 -> n <= pSize) /\
  stored o = map (fun p => clone env (store_of w p)) elite /\
  clones log = elite /\
  length (stored o) = Z.to_nat n.
Proof.
  intros Hsize Hgen Hec Hok log n. subst log.
  destruct (run_returns pSize visitor maxGen minErr eliteSize size mutator
              others o w Hsize Hgen Hok)
    as (ec & eg & w1 & g & Hec' & Hs1 & Hc1 & Hg & _ & Hn & Hle & Hlen
        & Hst & ->).
  rewrite Hec in Hec'. injection Hec' as <-.
  destruct (generations_returns dist env visitor minErr eliteCount mutator
              others (to_unsigned_range _ _ Hec) (Z.to_nat maxGen) 0 None
              w1 eg _ _ w Hs1 ltac:(lia) ltac:(lia) ltac:(discriminate) Hg)
    as (_ & _ & _ & _ & _ & _ & _ & _ & _ & Hlife & Hcl).
  destruct (run_log_parts pSize eg
              (firstn (Z.to_nat (if eliteCount <? size
                                 then eliteCount else size))
                      (_pool (engine w))) Hlife Hcl)
    as (_ & _ & _ & -> & _).
  assert (En : (if eliteCount <? size then eliteCount else size) = n).
  { subst n. destruct (Z.ltb_spec eliteCount size); lia. }
  rewrite En in *. cbv zeta.
  split; [exact Hn|].
  split; [intros Hsmall; rewrite Hn; apply to_int_small, Hsmall|].
  split; [exact Hle|]. split; [exact Hst|]. split; [reflexivity|].
  rewrite Hst, length_map. exact Hlen.
Qed.


(** X10: an engine built for no candidate cannot run a generation: with
    [pSize = 0] and [maxGen > 0], whatever the other arguments — provided
    the product [0 * eliteSize] is a number, as it is of every finite
    [eliteSize] — the run reserves nothing and stops in the first
    evaluation pass on an access outside the (empty) score array. *)
Theorem run_on_empty_pool visitor maxGen minErr eliteSize size
        mutator others :
  0 < maxGen -> number (of_unsigned 0 * eliteSize)%float ->
  run dist env 0 visitor maxGen minErr eliteSize size mutator others =
    ([EvReserve 0], Fault OutOfBounds).
Proof.
  intros Hgen Hnum. unfold run. rewrite train_unfold. cbn zeta.
  cbn [initial_world engine Trivial_new _count].
  assert (Hec : to_unsigned (of_unsigned 0 * eliteSize)%float = Ok 0).
  { apply number_spec in Hnum. unfold to_unsigned, truncate.
    rewrite mul_spec in *.
    change (Prim2SF (of_unsigned 0)) with (S754_zero false) in *.
    destruct (Prim2SF eliteSize) as [s|s| |s m e]; simpl in *;
      try reflexivity; congruence. }
  rewrite Hec.
  destruct (Z.to_nat maxGen) as [|remaining] eqn:E; [lia|].
  cbn [generations]. unfold bind at 1.
  rewrite evaluate_empty; [reflexivity| |reflexivity].
  unfold well_formed, UINT_MOD. simpl. lia.
Qed.

End RunFacts.


Lemma scalar_ranked_sound : sound Scalar.ranked.
Proof.
  split; [exact scalar_ranked_well_formed|].
  simpl. repeat constructor; simpl; intuition discriminate.
Defined.

Lemma generation_keeps_elite_witness :
  sound Scalar.ranked /\ 0 < _count (engine Scalar.ranked) /\
  0 <= 2 < UINT_MOD /\
  exists evs u w',
    generation_body Scalar.coin true 2 (Scalar.nudge 0.5)
                    [Scalar.nudge 0.25] Scalar.ranked =
      (evs, Ok (u, w')) /\
    _pool (engine w') = _pool (engine Scalar.ranked) /\
    store_of w' 0%nat = store_of Scalar.ranked 0%nat /\
    store_of w' 1%nat = store_of Scalar.ranked 1%nat.
Proof.
  split; [exact scalar_ranked_sound|]. split; [simpl; lia|].
  split; [unfold UINT_MOD; lia|].
  eexists. eexists. eexists.
  assert (Hrun : generation_body Scalar.coin true 2 (Scalar.nudge 0.5)
                   [Scalar.nudge 0.25] Scalar.ranked = _)
    by (vm_compute; reflexivity).
  split; [exact Hrun|].
  destruct (generation_keeps_elite Scalar.coin true 2 (Scalar.nudge 0.5)
              [Scalar.nudge 0.25] Scalar.ranked _ _ _ scalar_ranked_sound
              ltac:(simpl; lia) ltac:(unfold UINT_MOD; lia) Hrun)
    as (Hp & _ & Hkeep).
  split; [exact Hp|]. split.
  - apply (Hkeep 0); [lia|reflexivity].
  - apply (Hkeep 1); [lia|reflexivity].
Defined.

Lemma scalar_sample_returns :
  exists o w, snd Scalar.sample = Ok (o, w).
Proof. eexists. eexists. vm_compute. reflexivity. Defined.

Lemma scalar_sample_elite : to_unsigned (of_unsigned 4 * 0.5) = Ok 2.
Proof. vm_compute. reflexivity. Defined.


Lemma run_call_counts_witness :
  to_unsigned (of_unsigned 4 * 0.5) = Ok 2 /\
  exists o w,
    snd Scalar.sample = Ok (o, w) /\
    generation_of o = wrap (generation_of o) /\
    Z.of_nat (length (mutations (fst Scalar.sample))) =
      wrap (generation_of o) * (4 - 2) /\
    visits (fst Scalar.sample) =
      repeat 2 (Z.to_nat (wrap (generation_of o))).
Proof.
  split; [exact scalar_sample_elite|].
  destruct scalar_sample_returns as (o & w & Hok). exists o, w.
  split; [exact Hok|].
  destruct (run_call_counts Scalar.coin (Scalar.env 0) 4 true 3 0 0.5 4
              (Scalar.nudge 0.5) [Scalar.nudge 0.25] 2 o w
              ltac:(unfold UINT_MOD; lia) ltac:(unfold UINT_MOD; lia)
              scalar_sample_elite Hok) as (Hsmall & _ & Hmut & Hvis).
  split; [apply Hsmall; lia|]. split; [exact Hmut|exact Hvis].
Defined.

Lemma run_reserves_and_releases_once_witness :
  exists o w,
    snd Scalar.sample = Ok (o, w) /\
    lifecycle (fst Scalar.sample) = [EvReserve 4; EvRelease 4].
Proof.
  destruct scalar_sample_returns as (o & w & Hok). exists o, w.
  split; [exact Hok|].
  exact (proj1 (run_reserves_and_releases_once Scalar.coin (Scalar.env 0) 4
                  true 3 0 0.5 4 (Scalar.nudge 0.5)
                  [Scalar.nudge 0.25] o w ltac:(unfold UINT_MOD; lia)
                  ltac:(unfold UINT_MOD; lia) Hok)).
Defined.

Lemma run_copies_out_first_slots_witness :
  to_unsigned (of_unsigned 4 * 0.5) = Ok 2 /\
  exists o w,
    snd Scalar.sample = Ok (o, w) /\ number_of o = Z.min 2 4 /\
    length (stored o) = Z.to_nat (Z.min 2 4).
Proof.
  split; [exact scalar_sample_elite|].
  destruct scalar_sample_returns as (o & w & Hok). exists o, w.
  split; [exact Hok|].
  destruct (run_copies_out_first_slots Scalar.coin (Scalar.env 0) 4 true 3
              0 0.5 4 (Scalar.nudge 0.5) [Scalar.nudge 0.25] 2
              o w ltac:(unfold UINT_MOD; lia) ltac:(unfold UINT_MOD; lia)
              scalar_sample_elite Hok) as (_ & Hn & _ & _ & _ & Hlen).
  split; [apply Hn; lia|exact Hlen].
Defined.


Lemma run_on_empty_pool_witness :
  0 < 2 /\ number (of_unsigned 0 * 0.5)%float /\
  run Scalar.coin (Scalar.env 0) 0 true 2 0 0.5 4
      (Scalar.nudge 0.5) [] = ([EvReserve 0], Fault OutOfBounds).
Proof.
  split; [lia|]. split; [reflexivity|].
  apply (run_on_empty_pool Scalar.coin (Scalar.env 0) true 2 0 0.5 4
           (Scalar.nudge 0.5) []); [lia|reflexivity].
Defined.



(** ** The example program: candidates *)

Lemma nth_set_nth {A} (l : list A) n i x d :
  nth i (set_nth l n x) d =
    if (i =? n)%nat && (n <? length l)%nat then x else nth i l d.
Proof.
  revert n i. induction l as [|y t IH]; intros n i.
  - cbn [set_nth length]. destruct (n <? 0)%nat eqn:E;
      [apply Nat.ltb_lt in E; lia|].
    rewrite andb_false_r. reflexivity.
  - destruct n as [|n], i as [|i]; simpl; try reflexivity.
    rewrite IH. reflexivity.
Qed.

Lemma length_assign_each n g d : length (assign_each n g d) = length d.
Proof.
  unfold assign_each. generalize (seq 0 n) as l. intros l. revert d.
  induction l as [|i l IH]; intros d; simpl; [reflexivity|].
  rewrite IH. apply length_set_nth.
Qed.

(** After the loop, the cells below [n] hold what was assigned and the
    others what they held. *)
Lemma char_at_assign_each n g d i :
  char_at (assign_each n g d) i =
    if (i <? n)%nat && (i <? length d)%nat then g i else char_at d i.
Proof.
  unfold char_at. induction n as [|n IH].
  - reflexivity.
  - unfold assign_each in *. rewrite seq_S, fold_left_app. cbn [fold_left].
    rewrite nth_set_nth, IH. cbn [plus].
    fold (assign_each n g d). rewrite length_assign_each.
    destruct (Nat.eqb_spec i n) as [->|Hne].
    + rewrite Nat.ltb_irrefl. cbn [andb].
      destruct (Nat.ltb_spec n (length d)).
      * destruct (Nat.ltb_spec n (S n)); [reflexivity|lia].
      * rewrite andb_false_r. reflexivity.
    + cbn [andb]. destruct (Nat.ltb_spec i n);
        destruct (Nat.ltb_spec i (S n)); try lia; reflexivity.
Qed.

Lemma char_at_beyond (c : Candidate) i :
  (length c <= i)%nat -> char_at c i = Byte.x00.
Proof. intros H. unfold char_at. apply nth_overflow. exact H. Qed.

Lemma same_chars (a b : Candidate) :
  length a = length b ->
  (forall i, (i < length a)%nat -> char_at a i = char_at b i) -> a = b.
Proof.
  intros Hlen H. apply (nth_ext a b Byte.x00 Byte.x00 Hlen). exact H.
Qed.

(** A [char] is promoted to an integer of [-128, 127], a different one
    for each char. *)
Lemma char_val_range c : -128 <= char_val c <= 127.
Proof.
  unfold char_val. pose proof (Byte.to_N_bounded c) as H.
  destruct (Z.ltb_spec (Z.of_N (Byte.to_N c)) 128); lia.
Qed.

Lemma char_val_inj a b : char_val a = char_val b -> a = b.
Proof.
  unfold char_val. intros H.
  pose proof (Byte.to_N_bounded a) as Ha.
  pose proof (Byte.to_N_bounded b) as Hb.
  assert (E : Byte.to_N a = Byte.to_N b).
  { destruct (Z.ltb_spec (Z.of_N (Byte.to_N a)) 128);
      destruct (Z.ltb_spec (Z.of_N (Byte.to_N b)) 128); lia. }
  pose proof (Byte.of_to_N a) as Ea. pose proof (Byte.of_to_N b) as Eb.
  congruence.
Qed.

(** X12: copying keeps a candidate: the copy constructor and
    [operator=] both produce a candidate equal, char for char, to their
    source, so [Environment::clone] returns a candidate with the score of
    the original. *)
Theorem copies_are_exact (goal self orig : Candidate) :
  shaped orig -> shaped self ->
  Candidate_copy orig = orig /\ Candidate_assign self orig = orig /\
  Environment_evaluate goal (Environment_clone orig) =
    Environment_evaluate goal orig.
Proof.
  intros Ho Hs. unfold shaped in *.
  assert (Hcopy : Candidate_copy orig = orig).
  { apply same_chars.
    - unfold Candidate_copy. rewrite length_assign_each, repeat_length.
      symmetry. exact Ho.
    - intros i Hi. unfold Candidate_copy in *.
      rewrite length_assign_each, repeat_length in Hi.
      rewrite char_at_assign_each, repeat_length.
      destruct (Nat.ltb_spec i DATA_LENGTH); [reflexivity|lia]. }
  split; [exact Hcopy|]. split.
  - apply same_chars.
    + unfold Candidate_assign. rewrite length_assign_each. congruence.
    + intros i Hi. unfold Candidate_assign in *.
      rewrite length_assign_each in Hi. rewrite char_at_assign_each.
      destruct (Nat.ltb_spec i DATA_LENGTH); [|lia].
      destruct (Nat.ltb_spec i (length self)); [reflexivity|lia].
  - unfold Environment_clone. rewrite Hcopy. reflexivity.
Qed.

(** *** [distance] *)

Lemma In_zrange n :
  forall start z, In z (zrange n start) <-> start <= z < start + Z.of_nat n.
Proof.
  induction n as [|n IH]; intros start z.
  - simpl. lia.
  - cbn [zrange In]. rewrite IH. lia.
Qed.

(** The two checks, made by computation on every sum that the loop of
    [distance] can reach. *)
Lemma sums_exact_true : sums_exact = true.
Proof. vm_compute. reflexivity. Qed.

Lemma sevenths_checked_true : sevenths_checked = true.
Proof. vm_compute. reflexivity. Qed.

Lemma sum_exact s d :
  0 <= s <= MAX_GAP - 255 -> 1 <= d <= 255 ->
  (of_unsigned s + of_unsigned d)%float = of_unsigned (s + d).
Proof.
  intros Hs Hd. pose proof sums_exact_true as H. unfold sums_exact in H.
  rewrite forallb_forall in H. specialize (H s).
  rewrite forallb_forall in H.
  apply Leibniz.eqb_spec. apply H; apply In_zrange.
  - change (Z.of_nat (Z.to_nat (MAX_GAP - 254))) with (MAX_GAP - 254). lia.
  - change (Z.of_nat 255) with 255. lia.
Qed.

Lemma seventh k :
  1 <= k <= MAX_GAP ->
  (1 / 7 <=? of_unsigned k / 7)%float = true /\
  (of_unsigned k / 7 <=? MIN_ERROR)%float = false /\
  (of_unsigned (k - 1) / 7 <=? of_unsigned k / 7)%float = true /\
  (of_unsigned k / 7 <=? of_unsigned (k - 1) / 7)%float = false.
Proof.
  intros Hk. pose proof sevenths_checked_true as H.
  unfold sevenths_checked in H. rewrite forallb_forall in H.
  specialize (H k). rewrite !andb_true_iff, !negb_true_iff in H.
  destruct H as (((H1 & H2) & H3) & H4).
  - apply In_zrange.
    change (Z.of_nat (Z.to_nat MAX_GAP)) with MAX_GAP. lia.
  - auto.
Qed.

Lemma gap_nonneg l a b : 0 <= gap l a b.
Proof. induction l as [|i l IH]; simpl; lia. Qed.

Lemma gap_bound l a b : gap l a b <= 255 * Z.of_nat (length l).
Proof.
  induction l as [|i l IH]; [simpl; lia|].
  cbn [gap fold_right length]. fold (gap l a b).
  pose proof (char_val_range (char_at a i)).
  pose proof (char_val_range (char_at b i)). lia.
Qed.

Lemma gap_sym l a b : gap l a b = gap l b a.
Proof.
  induction l as [|i l IH]; simpl; [reflexivity|]. rewrite IH. lia.
Qed.

Lemma gap_triangle l a b c : gap l a c <= gap l a b + gap l b c.
Proof. induction l as [|i l IH]; simpl; lia. Qed.

Lemma gap_zero l a b :
  gap l a b = 0 <-> forall i, In i l -> char_at a i = char_at b i.
Proof.
  induction l as [|i l IH]; simpl.
  - split; [intros _ i []|reflexivity].
  - pose proof (gap_nonneg l a b). split.
    + intros H0 j [<-|Hj]; [apply char_val_inj; lia|].
      apply IH; [lia|exact Hj].
    + intros Hall. assert (gap l a b = 0) by (apply IH; auto).
      rewrite (Hall i); [lia|auto].
Qed.

(** The loop of [distance] computes the sum of the differences: none of
    its additions rounds. *)
Lemma distance_fold (a b : Candidate) l :
  forall acc,
    0 <= acc -> acc + 255 * Z.of_nat (length l) <= MAX_GAP ->
    fold_left (distance_step a b) l (of_unsigned acc) =
      of_unsigned (acc + gap l a b).
Proof.
  induction l as [|i l IH]; intros acc Hacc Hb.
  - simpl. rewrite Z.add_0_r. reflexivity.
  - cbn [fold_left length] in *.
    pose proof (char_val_range (char_at a i)) as Ra.
    pose proof (char_val_range (char_at b i)) as Rb.
    assert (Hstep : distance_step a b (of_unsigned acc) i =
                    of_unsigned
                      (acc + Z.abs (char_val (char_at a i) -
                                    char_val (char_at b i)))).
    { unfold distance_step.
      set (current := char_val (char_at a i) - char_val (char_at b i)) in *.
      destruct (Z.eqb_spec current 0) as [E|E].
      - rewrite E. simpl. rewrite Z.add_0_r. reflexivity.
      - replace (if current <? 0 then - current else current)
          with (Z.abs current) by (destruct (Z.ltb_spec current 0); lia).
        apply sum_exact; lia. }
    rewrite Hstep. rewrite IH by lia. f_equal. simpl. lia.
Qed.

Lemma distance_gap (a b : Candidate) :
  distance a b = (of_unsigned (gap (seq 0 DATA_LENGTH) a b) / 7)%float.
Proof.
  unfold distance. change 0%float with (of_unsigned 0) at 1.
  rewrite distance_fold; [reflexivity|lia|].
  rewrite length_seq. unfold MAX_GAP. lia.
Qed.

(** The quotient by 7 grows with the sum of differences. *)
Lemma sevenths_monotone j k :
  0 <= j <= k -> k <= MAX_GAP ->
  (of_unsigned j / 7 <=? of_unsigned k / 7)%float = true.
Proof.
  intros Hj Hk. replace k with (j + Z.of_nat (Z.to_nat (k - j))) in * by lia.
  induction (Z.to_nat (k - j)) as [|n IH].
  - rewrite Z.add_0_r. destruct (Z.eq_dec j 0) as [->|Hne];
      [reflexivity|].
    apply leb_refl. apply number_spec. intros E.
    destruct (seventh j ltac:(lia)) as (H1 & _).
    rewrite leb_spec, E in H1. unfold SFleb in H1.
    destruct (Prim2SF (1 / 7)); discriminate.
  - apply (leb_trans _ (of_unsigned (j + Z.of_nat n) / 7)%float).
    + apply IH; lia.
    + destruct (seventh (j + Z.of_nat (S n)) ltac:(lia)) as (_ & _ & H3 & _).
      replace (j + Z.of_nat (S n) - 1) with (j + Z.of_nat n) in H3 by lia.
      exact H3.
Qed.

(** X13: [distance] is the quotient by 7, rounded to a double, of the sum
    of the absolute differences of the chars, an integer of
    [0, 255 * DATA_LENGTH] that is symmetric and obeys the triangle
    inequality; so [distance] is never negative, zero from a candidate to
    itself, symmetric, and the larger the sum of differences the larger
    the distance. *)
Theorem distance_is_a_rounded_metric (a b c : Candidate) :
  let sum := gap (seq 0 DATA_LENGTH) in
  distance a b = (of_unsigned (sum a b) / 7)%float /\
  0 <= sum a b <= MAX_GAP /\ sum a a = 0 /\ sum a b = sum b a /\
  sum a c <= sum a b + sum b c /\
  (0 <=? distance a b)%float = true /\ distance a a = 0%float /\
  distance a b = distance b a /\
  (sum a b <= sum a c -> (distance a b <=? distance a c)%float = true).
Proof.
  intros sum. subst sum.
  assert (Hb : forall x y, 0 <= gap (seq 0 DATA_LENGTH) x y <= MAX_GAP).
  { intros x y. pose proof (gap_nonneg (seq 0 DATA_LENGTH) x y).
    pose proof (gap_bound (seq 0 DATA_LENGTH) x y) as H1.
    rewrite length_seq in H1. unfold MAX_GAP. lia. }
  assert (Hz : gap (seq 0 DATA_LENGTH) a a = 0)
    by (apply gap_zero; reflexivity).
  rewrite !distance_gap.
  split; [reflexivity|]. split; [apply Hb|]. split; [exact Hz|].
  split; [apply gap_sym|]. split; [apply gap_triangle|].
  split; [|split; [|split]].
  - change 0%float with (of_unsigned 0 / 7)%float.
    apply sevenths_monotone; [pose proof (Hb a b); lia|apply Hb].
  - rewrite Hz. reflexivity.
  - rewrite gap_sym. reflexivity.
  - intros Hle. apply sevenths_monotone; [pose proof (Hb a b); lia|apply Hb].
Qed.

(** X14: a score is a whole number of sevenths, so the threshold of
    [main], [MIN_ERROR = 0.08], is met by the goal alone: a candidate
    scores at or below it exactly when it equals the goal char for
    char; any other candidate scores at least the computed [1/7]. *)
Theorem min_error_means_goal (goal c : Candidate) :
  shaped goal -> shaped c ->
  ((Environment_evaluate goal c <=? MIN_ERROR)%float = true <-> c = goal) /\
  (Environment_evaluate goal c = 0%float \/
   (1 / 7 <=? Environment_evaluate goal c)%float = true).
Proof.
  intros Hg Hc. unfold Environment_evaluate. rewrite distance_gap.
  pose proof (gap_nonneg (seq 0 DATA_LENGTH) goal c) as Hnn.
  pose proof (gap_bound (seq 0 DATA_LENGTH) goal c) as Hmax.
  rewrite length_seq in Hmax. fold MAX_GAP in Hmax.
  destruct (Z.eq_dec (gap (seq 0 DATA_LENGTH) goal c) 0) as [H0|Hne].
  - rewrite H0. split; [|left; reflexivity].
    split; [intros _|reflexivity].
    symmetry. apply same_chars; [congruence|].
    intros i Hi. apply (proj1 (gap_zero _ _ _) H0).
    apply in_seq. unfold shaped in Hg. lia.
  - destruct (seventh (gap (seq 0 DATA_LENGTH) goal c) ltac:(lia))
      as (H1 & H2 & _).
    split; [|right; exact H1]. split.
    + intros Hle. rewrite H2 in Hle. discriminate.
    + intros ->. exfalso. apply Hne. apply gap_zero. reflexivity.
Qed.

